(** * Server key resolution: the Key Ring engine and its client-side facade

    A shallow embedding of

      - [serverkeyapi/internal/api.go]  (type [ServerKeyAPI]),
      - [serverkeyapi/inthttp/client.go] (type [httpServerKeyInternalAPI]),
      - [truncateAuthAndPrevEvents] of the event builder,

    followed by the properties of the key-resolution waterfall.

    Go maps are [gmap]s.  A method that mutates the map it was handed returns
    the map's new contents next to its Go results.  The Store, the Fetchers
    and the HTTP transport are interfaces on the Go side; here they are
    records of functions that thread an abstract [World], and every call made
    through them is written to a ghost trace so that ordering can be stated. *)

From Stdlib Require Import NArith.
From Stdlib.Strings Require Import Byte.
From stdpp Require Import gmap strings list fin_maps.

Set Default Proof Using "Type".

(** ** Types of gomatrixserverlib used by the resolver *)

Module gomatrixserverlib.

(** [type Timestamp uint64]; only compared here, never computed with. *)
Definition Timestamp := N.

(** [const PublicKeyNotExpired = Timestamp(0)] *)
Definition PublicKeyNotExpired : Timestamp := 0%N.

Record PublicKeyLookupRequest := {
  ServerName : string;
  KeyID : string }.

Record PublicKeyLookupResult := {
  VerifyKey : list byte;
  ExpiredTS : Timestamp;
  ValidUntilTS : Timestamp }.

(** [type EventReference struct { EventID string; EventSHA256 Base64Bytes }] *)
Record EventReference := {
  EventID : string;
  EventSHA256 : list byte }.

#[global] Instance PublicKeyLookupRequest_eq_dec : EqDecision PublicKeyLookupRequest.
Proof. solve_decision. Defined.

#[global] Instance PublicKeyLookupRequest_countable : Countable PublicKeyLookupRequest.
Proof.
  refine (inj_countable'
            (λ r, (ServerName r, KeyID r))
            (λ p, {| ServerName := p.1; KeyID := p.2 |}) _).
  by intros [].
Defined.

End gomatrixserverlib.

Export gomatrixserverlib.

Abbreviation Requests := (gmap PublicKeyLookupRequest Timestamp).
Abbreviation Results := (gmap PublicKeyLookupRequest PublicKeyLookupResult).

(** ** Contexts and errors *)

(** Go's [context.Context], cut down to the one thing a collaborator can
    observe of it in this code: whether it has been cancelled. *)
Record Context := { ctx_cancelled : bool }.

(** [context.Background()] *)
Definition Background : Context := {| ctx_cancelled := false |}.

(** Go [error] values.  [ErrCollaborator] is whatever a Store, a Fetcher or
    the transport reports; the other two are built by [fmt.Errorf] in
    [ServerKeyAPI.FetchKeys]. *)
Inductive error :=
| ErrCollaborator (msg : string)
| ErrStoreRetrieved (cause : error)
    (* "server key API failed to store retrieved keys: %w" *)
| ErrFetchFailed (n : nat).
    (* "server key API failed to fetch %d keys" *)

(** The test of lines 52 (api.go) and 96 (client.go):
    [now > res.ValidUntilTS && res.ExpiredTS == PublicKeyNotExpired]. *)
Definition stale (now : Timestamp) (res : PublicKeyLookupResult) : bool :=
  (ValidUntilTS res <? now)%N && (ExpiredTS res =? PublicKeyNotExpired)%N.

(** ** The event builder's truncation *)

Definition truncateAuthAndPrevEvents (auth prev : list EventReference)
  : list EventReference * list EventReference :=
  let truncAuth := auth in
  let truncPrev := prev in
  let truncAuth := if 10 <? length truncAuth then take 10 truncAuth else truncAuth in
  let truncPrev := if 20 <? length truncPrev then take 20 truncPrev else truncPrev in
  (truncAuth, truncPrev).

(** ** The Key Ring engine ([serverkeyapi/internal/api.go]) *)

Module ServerKeyAPI.
Section KeyRing.

(** State of everything behind the interfaces: database, remote servers. *)
Context {World : Type}.

(** [gomatrixserverlib.KeyDatabase] *)
Record KeyDatabase := {
  db_FetchKeys : Context → Requests → World → World * (Results * option error);
  db_StoreKeys : Context → Results → World → World * option error }.

(** [gomatrixserverlib.KeyFetcher] *)
Record KeyFetcher := {
  kf_FetchKeys : Context → Requests → World → World * (Results * option error) }.

(** [gomatrixserverlib.KeyRing] *)
Record KeyRing := {
  KeyFetchers : list KeyFetcher;
  KeyDatabase_ : KeyDatabase }.

(** Ghost record of one call through an interface: what was passed and
    what came back. *)
Inductive Event :=
| DbFetchKeys (ctx : Context) (requests : Requests)
              (ret : Results) (err : option error)
| FetcherFetchKeys (idx : nat) (ctx : Context) (requests : Requests)
                   (ret : Results) (err : option error)
| DbStoreKeys (ctx : Context) (results : Results) (err : option error).

(** What [FetchKeys] leaves behind: its two Go results ([None] is the nil
    map), the caller's [requests] map as mutated, the world, the calls. *)
Record Outcome := {
  out_results : option Results;
  out_err : option error;
  out_requests : Requests;
  out_world : World;
  out_trace : list Event }.

Definition emit (evs : list Event) (o : Outcome) : Outcome :=
  {| out_results := out_results o; out_err := out_err o;
     out_requests := out_requests o; out_world := out_world o;
     out_trace := evs ++ out_trace o |}.

(** Lines 25-34. *)
Definition StoreKeys (s : KeyRing) (_ : Context) (results : Results)
    (w : World) : World * option error :=
  let ctx := Background in
  db_StoreKeys (KeyDatabase_ s) ctx results w.

(** Lines 51-57: the loop over [dbResults]. *)
Definition consultStore (now : Timestamp) (dbResults : Results)
    (requests : Requests) (results : Results) : Requests * Results :=
  map_fold (λ req res '(requests, results),
              if stale now res then (requests, results)
              else (delete req requests, <[req := res]> results))
           (requests, results) dbResults.

(** Lines 69-72: the loop over [fetcherResults]. *)
Definition mergeFetched (fetcherResults : Results)
    (requests : Requests) (results : Results) : Requests * Results :=
  map_fold (λ req res '(requests, results),
              (delete req requests, <[req := res]> results))
           (requests, results) fetcherResults.

(** Lines 78-83. *)
Definition finish (requests : Requests) (results : Results) (w : World)
    : Outcome :=
  if 0 <? size requests then
    {| out_results := Some results;
       out_err := Some (ErrFetchFailed (size requests));
       out_requests := requests; out_world := w; out_trace := [] |}
  else
    {| out_results := Some results; out_err := None;
       out_requests := requests; out_world := w; out_trace := [] |}.

(** Lines 62-77, then 78-83: the loop over [KeyFetchers]; [idx] is the
    position of the head of [fetchers] in the configured list. *)
Fixpoint waterfall (db : KeyDatabase) (fetchers : list KeyFetcher) (idx : nat)
    (requests : Requests) (results : Results) (w : World) : Outcome :=
  match fetchers with
  | [] => finish requests results w
  | fetcher :: rest =>
    if size requests =? 0 then finish requests results w
    else
      let ctx := Background in
      let '(w1, (fetcherResults, err)) := kf_FetchKeys fetcher ctx requests w in
      let called := FetcherFetchKeys idx ctx requests fetcherResults err in
      match err with
      | None =>
        let '(requests', results') :=
          mergeFetched fetcherResults requests results in
        let '(w2, err') := db_StoreKeys db ctx fetcherResults w1 in
        let stored := DbStoreKeys ctx fetcherResults err' in
        match err' with
        | Some e =>
          {| out_results := None; out_err := Some (ErrStoreRetrieved e);
             out_requests := requests'; out_world := w2;
             out_trace := [called; stored] |}
        | None =>
          emit [called; stored]
               (waterfall db rest (S idx) requests' results' w2)
        end
      | Some _ =>
        emit [called] (waterfall db rest (S idx) requests results w1)
      end
  end.

(** Lines 36-84.  [now] is the reading of [time.Now()] at line 47. *)
Definition FetchKeys (s : KeyRing) (_ : Context) (now : Timestamp)
    (requests : Requests) (w : World) : Outcome :=
  let ctx := Background in
  let results : Results := ∅ in
  let '(w1, (dbResults, err)) := db_FetchKeys (KeyDatabase_ s) ctx requests w in
  let read := DbFetchKeys ctx requests dbResults err in
  let '(requests', results') :=
    match err with
    | None => consultStore now dbResults requests results
    | Some _ => (requests, results)
    end in
  emit [read] (waterfall (KeyDatabase_ s) (KeyFetchers s) 0 requests' results' w1).

End KeyRing.
End ServerKeyAPI.

(** ** The client-side cache facade ([serverkeyapi/inthttp/client.go]) *)

Module httpServerKeyInternalAPI.
Section Facade.

(** State of the remote side of the call boundary. *)
Context {World : Type}.

(** [internalHTTP.PostJSON] at the two request/response types it is used
    with; the URL and the tracing span are left out. *)
Record httpClient := {
  PostJSON_input : Context → Results → World → World * option error;
  PostJSON_query : Context → Requests → World → World * (Results * option error) }.

(** Modelled from the spec: [caching.ServerKeyCache], which client.go only
    uses through [GetServerKey] and [StoreServerKey]; the spec describes it
    as an in-memory cache of the same shape as the Store, written by upsert
    and never evicted by this subsystem. *)
Definition GetServerKey (cache : Results) (req : PublicKeyLookupRequest)
    : option PublicKeyLookupResult :=
  cache !! req.

(** Modelled from the spec: the cache's upsert, see [GetServerKey]. *)
Definition StoreServerKey (req : PublicKeyLookupRequest)
    (res : PublicKeyLookupResult) (cache : Results) : Results :=
  <[req := res]> cache.

(** Ghost record of one call across the boundary. *)
Inductive Call :=
| InputPublicKeysCall (ctx : Context) (keys : Results) (err : option error)
| QueryPublicKeysCall (ctx : Context) (requests : Requests)
                      (response : Results) (err : option error).

(** Lines 115-125 and 127-137. *)
Definition InputPublicKeys (h : httpClient) (ctx : Context) (request : Results)
    (w : World) : World * option error :=
  PostJSON_input h ctx request w.

Definition QueryPublicKeys (h : httpClient) (ctx : Context) (request : Requests)
    (w : World) : World * (Results * option error) :=
  PostJSON_query h ctx request w.

(** What a facade method leaves behind: its Go results, the cache, the
    remote world, the calls made. *)
Record StoreOutcome := {
  st_err : option error;
  st_cache : Results;
  st_world : World;
  st_calls : list Call }.

Record FetchOutcome := {
  ft_results : option Results;
  ft_err : option error;
  ft_cache : Results;
  ft_world : World;
  ft_calls : list Call }.

(** Lines 72-75: the loop over [results]. *)
Definition fillRequest (results : Results) (keys : Results) (cache : Results)
    : Results * Results :=
  map_fold (λ req res '(keys, cache),
              (<[req := res]> keys, StoreServerKey req res cache))
           (keys, cache) results.

(** Lines 61-77. *)
Definition StoreKeys (h : httpClient) (_ : Context) (results : Results)
    (cache : Results) (w : World) : StoreOutcome :=
  let ctx := Background in
  let '(keys, cache') := fillRequest results ∅ cache in
  let '(w1, err) := InputPublicKeys h ctx keys w in
  {| st_err := err; st_cache := cache'; st_world := w1;
     st_calls := [InputPublicKeysCall ctx keys err] |}.

(** Lines 94-103: the loop over [requests]. *)
Definition consultCache (now : Timestamp) (cache : Results)
    (requests : Requests) (result : Results) (request : Requests)
    : Results * Requests :=
  map_fold (λ req ts '(result, request),
              match GetServerKey cache req with
              | Some res =>
                if stale now res then (result, request)
                else (<[req := res]> result, request)
              | None => (result, <[req := ts]> request)
              end)
           (result, request) requests.

(** Lines 108-111: the loop over [response.Results]. *)
Definition absorbResponse (response : Results) (result : Results)
    (cache : Results) : Results * Results :=
  map_fold (λ req res '(result, cache),
              (<[req := res]> result, StoreServerKey req res cache))
           (result, cache) response.

(** Lines 79-113.  [now] is the reading of [time.Now()] at line 93. *)
Definition FetchKeys (h : httpClient) (_ : Context) (now : Timestamp)
    (requests : Requests) (cache : Results) (w : World) : FetchOutcome :=
  let ctx := Background in
  let '(result, request) := consultCache now cache requests ∅ ∅ in
  let '(w1, (response, err)) := QueryPublicKeys h ctx request w in
  let call := QueryPublicKeysCall ctx request response err in
  match err with
  | Some e =>
    {| ft_results := None; ft_err := Some e; ft_cache := cache;
       ft_world := w1; ft_calls := [call] |}
  | None =>
    let '(result', cache') := absorbResponse response result cache in
    {| ft_results := Some result'; ft_err := None; ft_cache := cache';
       ft_world := w1; ft_calls := [call] |}
  end.

End Facade.
End httpServerKeyInternalAPI.

(** ** Vocabulary for stating the properties *)

(** The validity invariant of the data model, as a proposition: a definitive
    expiry marker, or a current time that is not past [ValidUntilTS]. *)
Definition usable (now : Timestamp) (res : PublicKeyLookupResult) : Prop :=
  ExpiredTS res ≠ PublicKeyNotExpired ∨ ¬ (ValidUntilTS res < now)%N.

(** The entries of a store or cache answer that pass the test of line 52. *)
Definition usable_hits (now : Timestamp) (dbResults : Results) : Results :=
  filter (λ kv, stale now kv.2 = false) dbResults.

(** A request batch without the identifiers in [X]. *)
Definition outstanding (requests : Requests) (X : gset PublicKeyLookupRequest)
    : Requests :=
  filter (λ kv, kv.1 ∉ X) requests.

(** The part of a result batch that answers identifiers of [requests]. *)
Definition requested (requests : Requests) (results : Results) : Results :=
  filter (λ kv, kv.1 ∈ dom requests) results.

Module Trace.
Section Trace.
Import ServerKeyAPI.
Context {World : Type}.

(** What one event contributed to the output: the usable part of what the
    Store read returned, the whole batch of a Fetcher call that returned no
    error, nothing otherwise. *)
Definition contributed (now : Timestamp) (ev : Event) : Results :=
  match ev with
  | DbFetchKeys _ _ ret None => usable_hits now ret
  | FetcherFetchKeys _ _ _ ret None => ret
  | _ => ∅
  end.

(** [results] after the events of [tr], a later batch overwriting an
    earlier one. *)
Definition merged (now : Timestamp) (results : Results) (tr : list Event)
    : Results :=
  foldl (λ acc ev, contributed now ev ∪ acc) results tr.

(** The identifiers that some event of [tr] resolved. *)
Definition answered (now : Timestamp) (tr : list Event)
    : gset PublicKeyLookupRequest :=
  foldr (λ ev X, dom (contributed now ev) ∪ X) ∅ tr.

(** The identifiers that some successful Fetcher call of [tr] supplied. *)
Definition fetched (tr : list Event) : gset PublicKeyLookupRequest :=
  foldr (λ ev X, match ev with
                 | FetcherFetchKeys _ _ _ ret None => dom ret ∪ X
                 | _ => X
                 end) ∅ tr.

(** Whether some Store write of [tr] was refused. *)
Definition write_refused (tr : list Event) : bool :=
  existsb (λ ev, match ev with
                 | DbStoreKeys _ _ (Some _) => true
                 | _ => false
                 end) tr.

(** Positions, in the configured list, of the Fetchers called in [tr]. *)
Definition call_indices (tr : list Event) : list nat :=
  omap (λ ev, match ev with
              | FetcherFetchKeys idx _ _ _ _ => Some idx
              | _ => None
              end) tr.

Definition event_ctx (ev : Event) : Context :=
  match ev with
  | DbFetchKeys ctx _ _ _ => ctx
  | FetcherFetchKeys _ ctx _ _ _ => ctx
  | DbStoreKeys ctx _ _ => ctx
  end.

(** The error of lines 79-81 for a given set of leftover requests. *)
Definition unresolved_error (requests : Requests) : option error :=
  if decide (requests = ∅) then None else Some (ErrFetchFailed (size requests)).

(** The partial-failure rule: a batch is returned, it holds exactly the
    identifiers resolved during the call, and the error counts exactly the
    requested identifiers that are missing from it; with none missing
    there is no error and the batch covers the whole request. *)
Definition reports_unresolved (now : Timestamp) (requests : Requests)
    (o : @Outcome World) : Prop :=
  ∃ rs, out_results o = Some rs ∧
        dom rs = answered now (out_trace o) ∧
        let unresolved := outstanding requests (dom rs) in
        (unresolved ≠ ∅ → out_err o = Some (ErrFetchFailed (size unresolved))) ∧
        (unresolved = ∅ → out_err o = None ∧ dom requests ⊆ dom rs).

(** Big-step reading of the loop over the Fetchers, one rule per way
    through the loop body. *)
Inductive run (db : KeyDatabase)
  : nat → list KeyFetcher → Requests → Results → World → Outcome → Prop :=
| run_done idx fetchers requests results w :
    fetchers = [] ∨ requests = ∅ →
    run db idx fetchers requests results w (finish requests results w)
| run_skip idx fetcher rest requests results w w1 ret e o :
    requests ≠ ∅ →
    kf_FetchKeys fetcher Background requests w = (w1, (ret, Some e)) →
    run db (S idx) rest requests results w1 o →
    run db idx (fetcher :: rest) requests results w
        (emit [FetcherFetchKeys idx Background requests ret (Some e)] o)
| run_merge idx fetcher rest requests results w w1 w2 ret o :
    requests ≠ ∅ →
    kf_FetchKeys fetcher Background requests w = (w1, (ret, None)) →
    db_StoreKeys db Background ret w1 = (w2, None) →
    run db (S idx) rest (outstanding requests (dom ret)) (ret ∪ results) w2 o →
    run db idx (fetcher :: rest) requests results w
        (emit [FetcherFetchKeys idx Background requests ret None;
               DbStoreKeys Background ret None] o)
| run_abort idx fetcher rest requests results w w1 w2 ret e :
    requests ≠ ∅ →
    kf_FetchKeys fetcher Background requests w = (w1, (ret, None)) →
    db_StoreKeys db Background ret w1 = (w2, Some e) →
    run db idx (fetcher :: rest) requests results w
        {| out_results := None; out_err := Some (ErrStoreRetrieved e);
           out_requests := outstanding requests (dom ret); out_world := w2;
           out_trace := [FetcherFetchKeys idx Background requests ret None;
                         DbStoreKeys Background ret (Some e)] |}.

End Trace.
End Trace.

(** ** Concrete collaborators and batches used in the examples *)

Module Scenario.
Import ServerKeyAPI.

(** Modelled from the spec: the Key Store, which the source reaches only
    through the [KeyDatabase] interface.  Its contents are the world;
    [StoreKeys] is an upsert in which the written value wins and no other
    entry is touched, [FetchKeys] returns what is held for the requested
    identifiers. *)
Definition MemStore : @KeyDatabase Results :=
  {| db_FetchKeys := λ _ requests w, (w, (requested requests w, None));
     db_StoreKeys := λ _ results w, (results ∪ w, None) |}.

(** A store that gives up as soon as the context it is handed is cancelled. *)
Definition FussyStore : @KeyDatabase Results :=
  {| db_FetchKeys := λ ctx requests w,
       if ctx_cancelled ctx then (w, (∅, Some (ErrCollaborator "context canceled")))
       else (w, (requested requests w, None));
     db_StoreKeys := λ ctx results w,
       if ctx_cancelled ctx then (w, Some (ErrCollaborator "context canceled"))
       else (results ∪ w, None) |}.

(** A store whose reads fail and whose writes work. *)
Definition UnreadableStore : @KeyDatabase Results :=
  {| db_FetchKeys := λ _ requests w,
       (w, (requested requests w, Some (ErrCollaborator "read failed")));
     db_StoreKeys := λ _ results w, (results ∪ w, None) |}.

(** A store whose reads work and whose writes fail. *)
Definition ReadOnlyStore : @KeyDatabase Results :=
  {| db_FetchKeys := λ _ requests w, (w, (requested requests w, None));
     db_StoreKeys := λ _ results w, (w, Some (ErrCollaborator "disk full")) |}.

(** A Fetcher that knows [known] and answers what it is asked of it. *)
Definition Oracle (known : Results) : @KeyFetcher Results :=
  {| kf_FetchKeys := λ _ requests w, (w, (requested requests known, None)) |}.

(** A Fetcher that always fails. *)
Definition Down : @KeyFetcher Results :=
  {| kf_FetchKeys := λ _ requests w, (w, (∅, Some (ErrCollaborator "unreachable"))) |}.

(** A remote Key Ring behind the call boundary that resolves what [known]
    holds; its world is the batch it was last sent to store. *)
Definition Remote (known : Results) : @httpServerKeyInternalAPI.httpClient Results :=
  {| httpServerKeyInternalAPI.PostJSON_input := λ _ keys w, (keys ∪ w, None);
     httpServerKeyInternalAPI.PostJSON_query := λ _ requests w,
       (w, (requested requests known, None)) |}.

Definition K1 : PublicKeyLookupRequest :=
  {| ServerName := "matrix.org"; KeyID := "ed25519:auto" |}.
Definition K2 : PublicKeyLookupRequest :=
  {| ServerName := "example.com"; KeyID := "ed25519:1" |}.

(** No expiry marker, valid until 100. *)
Definition R100 : PublicKeyLookupResult :=
  {| VerifyKey := [x01]; ExpiredTS := PublicKeyNotExpired; ValidUntilTS := 100%N |}.
(** Expired (revoked) at 80, valid until 100. *)
Definition R100x : PublicKeyLookupResult :=
  {| VerifyKey := [x02]; ExpiredTS := 80%N; ValidUntilTS := 100%N |}.
(** No expiry marker, valid until 200. *)
Definition R200 : PublicKeyLookupResult :=
  {| VerifyKey := [x03]; ExpiredTS := PublicKeyNotExpired; ValidUntilTS := 200%N |}.

Definition cancelled : Context := {| ctx_cancelled := true |}.

Definition refs (n : nat) : list EventReference :=
  (λ i, {| EventID := String (Ascii.ascii_of_nat (65 + i)) EmptyString; EventSHA256 := [] |})
    <$> seq 0 n.

End Scenario.

(** ** The event builder ([BuildEvent], [AddPrevEventsToEvent]) *)

Module events.

(** Go [error] values of this package.  [ErrRoomNoExists] is the package
    variable of line 31, compared by identity on the Go side; [ErrorsNew] and
    [Errorf] are built by [errors.New] and [fmt.Errorf("...: %w", err)];
    [ErrForeign] is whatever a collaborator reports. *)
Inductive builderror :=
| ErrRoomNoExists
| ErrorsNew (msg : string)
| Errorf (prefix : string) (cause : builderror)
| ErrForeign (msg : string).

(** [gomatrixserverlib.EventFormat]: the two formats the switch of lines
    115-129 knows, and any other value. *)
Inductive EventFormat :=
| EventFormatV1
| EventFormatV2
| EventFormatOther.

(** The [interface{}] fields [AuthEvents] and [PrevEvents] of the builder:
    unset, a slice of [EventReference], or a slice of event IDs. *)
Inductive References :=
| NoReferences
| ByReference (refs : list EventReference)
| ByEventID (ids : list string).

Definition references_length (r : References) : nat :=
  match r with
  | NoReferences => 0
  | ByReference refs => length refs
  | ByEventID ids => length ids
  end.

Section events.

(** The roomserver's state, and the types of gomatrixserverlib that the
    code only passes around. *)
Context {World Event StateNeeded StateKeyTuple AuthEvents Fields Time PrivateKey : Type}.

(** [gomatrixserverlib.EventBuilder]: the four fields the code touches, and
    the rest. *)
Record EventBuilder := {
  eb_RoomID : string;
  eb_Depth : Z;
  eb_AuthEvents : References;
  eb_PrevEvents : References;
  eb_fields : Fields }.

Record QueryLatestEventsAndStateRequest := {
  rq_RoomID : string;
  rq_StateToFetch : list StateKeyTuple }.

Record QueryLatestEventsAndStateResponse := {
  rs_RoomExists : bool;
  rs_RoomVersion : string;
  rs_Depth : Z;
  rs_StateEvents : list Event;
  rs_LatestEvents : list EventReference }.

(** [cfg.Matrix], as far as [BuildEvent] reads it. *)
Record Matrix := {
  cfg_ServerName : string;
  cfg_KeyID : string;
  cfg_PrivateKey : PrivateKey }.

(** What the code calls in gomatrixserverlib and in the roomserver API.  A
    Go method that mutates its receiver returns the new receiver; the
    roomserver call receives the response object to fill. *)
Record Collaborators := {
  StateNeededForEventBuilder : EventBuilder → StateNeeded * option builderror;
  Tuples : StateNeeded → list StateKeyTuple;
  QueryLatestEventsAndState : Context →
    QueryLatestEventsAndStateRequest → QueryLatestEventsAndStateResponse →
    World → World * (QueryLatestEventsAndStateResponse * option builderror);
  RoomVersion_EventFormat : string → EventFormat * option builderror;
  NewAuthEvents : AuthEvents;
  AddEvent : AuthEvents → Event → AuthEvents * option builderror;
  AuthEventReferences :
    StateNeeded → AuthEvents → list EventReference * option builderror;
  Build : EventBuilder → Time → string → string → PrivateKey → string →
          Event * option builderror }.

(** What [AddPrevEventsToEvent] leaves behind: its error, the builder and
    the response object as mutated, the roomserver's state. *)
Record Filled := {
  fl_err : option builderror;
  fl_builder : EventBuilder;
  fl_queryRes : QueryLatestEventsAndStateResponse;
  fl_world : World }.

Definition withDepth (depth : Z) (b : EventBuilder) : EventBuilder :=
  {| eb_RoomID := eb_RoomID b; eb_Depth := depth;
     eb_AuthEvents := eb_AuthEvents b; eb_PrevEvents := eb_PrevEvents b;
     eb_fields := eb_fields b |}.

Definition withReferences (auth prev : References) (b : EventBuilder)
    : EventBuilder :=
  {| eb_RoomID := eb_RoomID b; eb_Depth := eb_Depth b;
     eb_AuthEvents := auth; eb_PrevEvents := prev;
     eb_fields := eb_fields b |}.

(** Lines 102-107: the loop over [queryRes.StateEvents]. *)
Fixpoint addStateEvents (c : Collaborators) (authEvents : AuthEvents)
    (stateEvents : list Event) : AuthEvents * option builderror :=
  match stateEvents with
  | [] => (authEvents, None)
  | ev :: rest =>
    let '(authEvents', err) := AddEvent c authEvents ev in
    match err with
    | Some e => (authEvents', Some (Errorf "authEvents.AddEvent" e))
    | None => addStateEvents c authEvents' rest
    end
  end.

(** Lines 66-132. *)
Definition AddPrevEventsToEvent (c : Collaborators) (ctx : Context)
    (builder : EventBuilder) (queryRes : QueryLatestEventsAndStateResponse)
    (w : World) : Filled :=
  let '(eventsNeeded, err) := StateNeededForEventBuilder c builder in
  match err with
  | Some e =>
    {| fl_err := Some (Errorf "gomatrixserverlib.StateNeededForEventBuilder" e);
       fl_builder := builder; fl_queryRes := queryRes; fl_world := w |}
  | None =>
    if length (Tuples c eventsNeeded) =? 0 then
      {| fl_err := Some (ErrorsNew "expecting state tuples for event builder, got none");
         fl_builder := builder; fl_queryRes := queryRes; fl_world := w |}
    else
      let queryReq := {| rq_RoomID := eb_RoomID builder;
                         rq_StateToFetch := Tuples c eventsNeeded |} in
      let '(w1, (queryRes, err)) :=
        QueryLatestEventsAndState c ctx queryReq queryRes w in
      match err with
      | Some e =>
        {| fl_err := Some (Errorf "rsAPI.QueryLatestEventsAndState" e);
           fl_builder := builder; fl_queryRes := queryRes; fl_world := w1 |}
      | None =>
        if negb (rs_RoomExists queryRes) then
          {| fl_err := Some ErrRoomNoExists;
             fl_builder := builder; fl_queryRes := queryRes; fl_world := w1 |}
        else
          let '(eventFormat, err) :=
            RoomVersion_EventFormat c (rs_RoomVersion queryRes) in
          match err with
          | Some e =>
            {| fl_err := Some (Errorf "queryRes.RoomVersion.EventFormat" e);
               fl_builder := builder; fl_queryRes := queryRes; fl_world := w1 |}
          | None =>
            let builder := withDepth (rs_Depth queryRes) builder in
            let '(authEvents, err) :=
              addStateEvents c (NewAuthEvents c) (rs_StateEvents queryRes) in
            match err with
            | Some e =>
              {| fl_err := Some e;
                 fl_builder := builder; fl_queryRes := queryRes; fl_world := w1 |}
            | None =>
              let '(refs, err) := AuthEventReferences c eventsNeeded authEvents in
              match err with
              | Some e =>
                {| fl_err := Some (Errorf "eventsNeeded.AuthEventReferences" e);
                   fl_builder := builder; fl_queryRes := queryRes;
                   fl_world := w1 |}
              | None =>
                let '(truncAuth, truncPrev) :=
                  truncateAuthAndPrevEvents refs (rs_LatestEvents queryRes) in
                let builder :=
                  match eventFormat with
                  | EventFormatV1 =>
                    withReferences (ByReference truncAuth) (ByReference truncPrev)
                                   builder
                  | EventFormatV2 =>
                    withReferences (ByEventID (EventID <$> truncAuth))
                                   (ByEventID (EventID <$> truncPrev)) builder
                  | EventFormatOther => builder
                  end in
                {| fl_err := None;
                   fl_builder := builder; fl_queryRes := queryRes; fl_world := w1 |}
              end
            end
          end
      end
  end.

(** The zero value [&api.QueryLatestEventsAndStateResponse{}] of line 45. *)
Definition emptyResponse : QueryLatestEventsAndStateResponse :=
  {| rs_RoomExists := false; rs_RoomVersion := EmptyString; rs_Depth := 0%Z;
     rs_StateEvents := []; rs_LatestEvents := [] |}.

(** What [BuildEvent] leaves behind: its two Go results ([None] is the nil
    event), and what its call of [AddPrevEventsToEvent] left. *)
Record Built := {
  bl_event : option Event;
  bl_err : option builderror;
  bl_filled : Filled }.

(** Lines 39-63.  [queryRes] is [None] for the nil pointer. *)
Definition BuildEvent (c : Collaborators) (ctx : Context)
    (builder : EventBuilder) (cfg : Matrix) (evTime : Time)
    (queryRes : option QueryLatestEventsAndStateResponse) (w : World) : Built :=
  let queryRes := match queryRes with
                  | None => emptyResponse
                  | Some queryRes => queryRes
                  end in
  let filled := AddPrevEventsToEvent c ctx builder queryRes w in
  match fl_err filled with
  | Some err => {| bl_event := None; bl_err := Some err; bl_filled := filled |}
  | None =>
    let '(event, err) :=
      Build c (fl_builder filled) evTime (cfg_ServerName cfg) (cfg_KeyID cfg)
            (cfg_PrivateKey cfg) (rs_RoomVersion (fl_queryRes filled)) in
    match err with
    | Some err => {| bl_event := None; bl_err := Some err; bl_filled := filled |}
    | None => {| bl_event := Some event; bl_err := None; bl_filled := filled |}
    end
  end.

End events.
End events.

(** ** Concrete collaborators of the event builder used in the examples *)

Module BuilderScenario.
Import events.

(** A roomserver that answers with [response] whatever the response object
    held, and counts its calls; events are their IDs, the auth events
    provider is the list of events added, the state needed is its tuples. *)
Definition toy (needed : list string) (response : @QueryLatestEventsAndStateResponse string)
    (authRefs : list EventReference)
  : @Collaborators nat string (list string) string (list string) unit nat unit :=
  {| StateNeededForEventBuilder := λ _, (needed, None);
     Tuples := λ tuples, tuples;
     QueryLatestEventsAndState := λ _ _ _ calls, (S calls, (response, None));
     RoomVersion_EventFormat := λ version,
       if String.eqb version "1" then (EventFormatV1, None)
       else if String.eqb version "3" then (EventFormatV2, None)
       else (EventFormatOther, Some (ErrForeign "unsupported room version"));
     NewAuthEvents := [];
     AddEvent := λ authEvents ev, (ev :: authEvents, None);
     AuthEventReferences := λ _ _, (authRefs, None);
     Build := λ builder _ _ _ _ _, (eb_RoomID builder, None) |}.

Definition blank : @EventBuilder unit :=
  {| eb_RoomID := "!room:a"; eb_Depth := 0%Z; eb_AuthEvents := NoReferences;
     eb_PrevEvents := NoReferences; eb_fields := () |}.

Definition room (exists_ : bool) (version : string) (latest : nat)
    : @QueryLatestEventsAndStateResponse string :=
  {| rs_RoomExists := exists_; rs_RoomVersion := version; rs_Depth := 7%Z;
     rs_StateEvents := ["$create"; "$member"];
     rs_LatestEvents := Scenario.refs latest |}.

End BuilderScenario.

(** ** The invite events table: [selectInviteEventsInRange] *)

Module invites.

(** One row of the result set as [rows.Scan] hands it over: the two columns
    [room_id] and [event_json], or the error of [rows.Scan]. *)
Inductive Scanned :=
| ScanOK (roomID : string) (eventJSON : list byte)
| ScanErr (err : string).

Section invites.

(** [gomatrixserverlib.Event], only passed around here. *)
Context {Event : Type}.

(** The two things the function calls: the prepared statement, run with the
    three arguments (it answers with an error, or with the rows in the order
    in which [rows.Next] delivers them, which the statement's
    [ORDER BY id DESC] makes the order of falling ids), and
    [gomatrixserverlib.NewEventFromTrustedJSON(eventJSON, false)]. *)
Record Calls := {
  QueryContext : string → Z → Z → list Scanned + string;
  NewEventFromTrustedJSON : list byte → Event + string }.

(** The loop [for rows.Next()] of the function. *)
Fixpoint collectRows (c : Calls) (rows : list Scanned)
    (result : gmap string Event) : gmap string Event + string :=
  match rows with
  | [] => inl result
  | ScanErr err :: _ => inr err
  | ScanOK roomID eventJSON :: rest =>
    match NewEventFromTrustedJSON c eventJSON with
    | inr err => inr err
    | inl event => collectRows c rest (<[roomID := event]> result)
    end
  end.

(** [selectInviteEventsInRange]; the results are the map ([None] is nil) and
    the error. *)
Definition selectInviteEventsInRange (c : Calls) (targetUserID : string)
    (startPos endPos : Z) : option (gmap string Event) * option string :=
  match QueryContext c targetUserID startPos endPos with
  | inr err => (None, Some err)
  | inl rows =>
    match collectRows c rows ∅ with
    | inr err => (None, Some err)
    | inl result => (Some result, None)
    end
  end.

(** The [event_json] of the last row of [rows] that belongs to [room]. *)
Definition last_json (room : string) (rows : list Scanned) : option (list byte) :=
  last (omap (λ row, match row with
                     | ScanOK roomID eventJSON =>
                       if decide (roomID = room) then Some eventJSON else None
                     | ScanErr _ => None
                     end) rows).

(** The error of one row, if it has one. *)
Definition row_error (c : Calls) (row : Scanned) : option string :=
  match row with
  | ScanErr err => Some err
  | ScanOK _ eventJSON =>
    match NewEventFromTrustedJSON c eventJSON with
    | inr err => Some err
    | inl _ => None
    end
  end.

End invites.

(** Rows and a parser for the examples: an event is its JSON, and JSON that
    starts with a zero byte does not parse. *)
Definition toyCalls (rows : list Scanned) : @Calls (list byte) :=
  {| QueryContext := λ _ _ _, inl rows;
     NewEventFromTrustedJSON := λ json,
       match json with
       | x00 :: _ => inr "bad JSON"%string
       | _ => inl json
       end |}.

End invites.

(** * Properties *)

(** ** The validity test *)

Lemma stale_false_usable now res : stale now res = false ↔ usable now res.
Proof.
  unfold stale, usable. rewrite andb_false_iff, N.ltb_ge, N.eqb_neq. lia.
Qed.

Lemma stale_true_not_usable now res : stale now res = true ↔ ¬ usable now res.
Proof.
  rewrite <- stale_false_usable. destruct (stale now res); naive_solver.
Qed.

(** ** Batches *)

Lemma outstanding_lookup (requests : Requests) X k :
  outstanding requests X !! k = if decide (k ∈ X) then None else requests !! k.
Proof.
  unfold outstanding. case_decide as Hk.
  - apply map_lookup_filter_None. right. intros ? _. simpl. auto.
  - destruct (requests !! k) as [ts|] eqn:E.
    + apply map_lookup_filter_Some. auto.
    + apply map_lookup_filter_None. left. done.
Qed.

Lemma outstanding_empty (requests : Requests) : outstanding requests ∅ = requests.
Proof.
  apply map_eq; intros k. rewrite outstanding_lookup.
  case_decide; [set_solver | done].
Qed.

Lemma outstanding_outstanding (requests : Requests) X Y :
  outstanding (outstanding requests X) Y = outstanding requests (X ∪ Y).
Proof.
  apply map_eq; intros k. rewrite !outstanding_lookup.
  destruct (decide (k ∈ X)) as [HX|HX].
  - rewrite (decide_True (P := k ∈ X ∪ Y)) by set_solver. by case_decide.
  - destruct (decide (k ∈ Y)) as [HY|HY].
    + by rewrite (decide_True (P := k ∈ X ∪ Y)) by set_solver.
    + by rewrite (decide_False (P := k ∈ X ∪ Y))
        by (rewrite elem_of_union; tauto).
Qed.

Lemma outstanding_delete (requests : Requests) X k :
  delete k (outstanding requests X) = outstanding requests ({[k]} ∪ X).
Proof.
  apply map_eq; intros j. rewrite lookup_delete, !outstanding_lookup.
  destruct (decide (k = j)) as [->|Hne].
  - by rewrite (decide_True (P := j ∈ {[j]} ∪ X)) by set_solver.
  - destruct (decide (j ∈ X)) as [HX|HX].
    + by rewrite (decide_True (P := j ∈ {[k]} ∪ X)) by set_solver.
    + by rewrite (decide_False (P := j ∈ {[k]} ∪ X))
        by (rewrite elem_of_union, elem_of_singleton; intros [Hj|Hj]; auto).
Qed.

Lemma outstanding_none_left (requests : Requests) X :
  outstanding requests X = ∅ ↔ dom requests ⊆ X.
Proof.
  split.
  - intros Hempty k Hk. apply elem_of_dom in Hk as [ts Hts].
    assert (Hlook : outstanding requests X !! k = None) by by rewrite Hempty.
    rewrite outstanding_lookup in Hlook. case_decide; [done|congruence].
  - intros Hsub. apply map_eq; intros k.
    rewrite outstanding_lookup, lookup_empty. case_decide as Hk; [done|].
    apply not_elem_of_dom. intros Hin. by apply Hk, Hsub.
Qed.

Lemma usable_hits_lookup now (dbResults : Results) k :
  usable_hits now dbResults !! k =
    match dbResults !! k with
    | Some r => if stale now r then None else Some r
    | None => None
    end.
Proof.
  unfold usable_hits. destruct (dbResults !! k) as [r|] eqn:E.
  - destruct (stale now r) eqn:S.
    + apply map_lookup_filter_None. right. intros r' ?. simpl. congruence.
    + apply map_lookup_filter_Some. auto.
  - apply map_lookup_filter_None. left. done.
Qed.

Lemma requested_lookup (requests : Requests) (results : Results) k :
  requested requests results !! k =
    match requests !! k with Some _ => results !! k | None => None end.
Proof.
  unfold requested. destruct (requests !! k) as [ts|] eqn:E.
  - destruct (results !! k) as [r|] eqn:R.
    + apply map_lookup_filter_Some. split; [done|]. simpl.
      apply elem_of_dom. eauto.
    + apply map_lookup_filter_None. by left.
  - apply map_lookup_filter_None. right. intros r _. simpl.
    by apply not_elem_of_dom.
Qed.

Lemma requested_all (requests : Requests) (results : Results) :
  dom requests = dom results → requested requests results = results.
Proof.
  intros Hdom. apply map_eq; intros k. rewrite requested_lookup.
  destruct (requests !! k) eqn:E; [done|].
  apply not_elem_of_dom in E. rewrite Hdom in E.
  by apply not_elem_of_dom in E.
Qed.

Lemma size_zero_empty (requests : Requests) : size requests = 0 ↔ requests = ∅.
Proof. apply map_size_empty_iff. Qed.

(** ** The loops over Go maps, in closed form *)

Module Loops.
Section Loops.
Import ServerKeyAPI.

Lemma consultStore_eq now dbResults requests results :
  consultStore now dbResults requests results =
    (outstanding requests (dom (usable_hits now dbResults)),
     usable_hits now dbResults ∪ results).
Proof.
  unfold consultStore.
  apply (map_fold_weak_ind (λ acc m,
    acc = (outstanding requests (dom (usable_hits now m)),
           usable_hits now m ∪ results))).
  - unfold usable_hits. rewrite map_filter_empty, dom_empty_L.
    by rewrite outstanding_empty, (left_id_L ∅ (∪)).
  - intros i x m r Hi ->. unfold usable_hits.
    destruct (stale now x) eqn:S.
    + rewrite map_filter_insert_not'; simpl; auto; congruence.
    + rewrite map_filter_insert_True by done.
      by rewrite dom_insert_L, outstanding_delete, insert_union_l.
Qed.

Lemma mergeFetched_eq fetcherResults requests results :
  mergeFetched fetcherResults requests results =
    (outstanding requests (dom fetcherResults), fetcherResults ∪ results).
Proof.
  unfold mergeFetched.
  apply (map_fold_weak_ind (λ acc m,
    acc = (outstanding requests (dom m), m ∪ results))).
  - by rewrite dom_empty_L, outstanding_empty, (left_id_L ∅ (∪)).
  - intros i x m r Hi ->.
    by rewrite dom_insert_L, outstanding_delete, insert_union_l.
Qed.

End Loops.

Section FacadeLoops.
Import httpServerKeyInternalAPI.

Lemma fillRequest_eq results keys cache :
  fillRequest results keys cache = (results ∪ keys, results ∪ cache).
Proof.
  unfold fillRequest, StoreServerKey.
  apply (map_fold_weak_ind (λ acc m, acc = (m ∪ keys, m ∪ cache))).
  - by rewrite !(left_id_L ∅ (∪)).
  - intros i x m r Hi ->. by rewrite !insert_union_l.
Qed.

Lemma absorbResponse_eq response result cache :
  absorbResponse response result cache = (response ∪ result, response ∪ cache).
Proof.
  unfold absorbResponse, StoreServerKey.
  apply (map_fold_weak_ind (λ acc m, acc = (m ∪ result, m ∪ cache))).
  - by rewrite !(left_id_L ∅ (∪)).
  - intros i x m r Hi ->. by rewrite !insert_union_l.
Qed.

Lemma consultCache_eq now cache requests :
  consultCache now cache requests ∅ ∅ =
    (requested requests (usable_hits now cache),
     outstanding requests (dom cache)).
Proof.
  unfold consultCache, GetServerKey.
  apply (map_fold_weak_ind (λ acc m,
    acc = (requested m (usable_hits now cache), outstanding m (dom cache)))).
  - f_equal; apply map_eq; intros k;
      rewrite ?requested_lookup, ?outstanding_lookup, ?lookup_empty;
      try case_decide; done.
  - intros i x m r Hi ->.
    destruct (cache !! i) as [res|] eqn:E; [destruct (stale now res) eqn:S|];
      f_equal; apply map_eq; intros k;
      rewrite ?requested_lookup, ?outstanding_lookup, ?usable_hits_lookup;
      (destruct (decide (k = i)) as [->|Hne];
       [ rewrite ?lookup_insert_eq, ?requested_lookup, ?outstanding_lookup,
           ?usable_hits_lookup, ?lookup_insert_eq, ?Hi, ?E, ?S
       | rewrite ?lookup_insert_ne by done;
         rewrite ?requested_lookup, ?outstanding_lookup, ?usable_hits_lookup;
         rewrite ?lookup_insert_ne by done ]);
      try done.
    all: case_decide as Hd; try done.
    all: rewrite elem_of_dom, E in Hd; try done.
    all: by destruct Hd; eauto.
Qed.

End FacadeLoops.
End Loops.

(** ** Iteration order of Go maps

    [range] over a Go map visits the entries in an unspecified order.  The
    loops above are written with [map_fold], which fixes one order; their
    bodies commute on distinct keys, so every other order of the same
    entries gives the same result. *)

Lemma range_any_order `{Countable K} {V S : Type}
    (body : K → V → S → S) (m : gmap K V) (s : S) (l : list (K * V)) :
  (∀ k1 v1 k2 v2 s', k1 ≠ k2 →
     body k1 v1 (body k2 v2 s') = body k2 v2 (body k1 v1 s')) →
  l ≡ₚ map_to_list m →
  foldr (uncurry body) s l = map_fold body s m.
Proof.
  intros Hcomm Hperm. rewrite map_fold_foldr.
  apply (λ Hbody, foldr_permutation (=) (uncurry body) s l (map_to_list m)
                 Hbody Hperm).
  assert (Hnd : NoDup (l.*1)).
  { rewrite Hperm. apply NoDup_fst_map_to_list. }
  intros j1 [k1 v1] j2 [k2 v2] b Hne H1 H2. simpl. apply Hcomm.
  intros ->. apply Hne.
  apply (NoDup_lookup _ _ _ k2 Hnd); by rewrite list_lookup_fmap, ?H1, ?H2.
Qed.

Lemma consultStore_any_order now (dbResults : Results) requests results l :
  l ≡ₚ map_to_list dbResults →
  foldr (λ '(req, res) '(requests, results),
           if stale now res then (requests, results)
           else (delete req requests, <[req := res]> results))
        (requests, results) l
  = ServerKeyAPI.consultStore now dbResults requests results.
Proof.
  intros Hperm. unfold ServerKeyAPI.consultStore.
  rewrite <- (range_any_order _ _ _ l); [| |exact Hperm].
  - apply foldr_ext; [|done..]. by intros [req res] [rq rs].
  - intros k1 v1 k2 v2 [rq rs] Hne.
    destruct (stale now v1), (stale now v2); try done.
    by rewrite delete_delete, insert_insert_ne.
Qed.

Lemma mergeFetched_any_order (fetcherResults : Results) requests results l :
  l ≡ₚ map_to_list fetcherResults →
  foldr (λ '(req, res) '(requests, results),
           (delete req requests, <[req := res]> results))
        (requests, results) l
  = ServerKeyAPI.mergeFetched fetcherResults requests results.
Proof.
  intros Hperm. unfold ServerKeyAPI.mergeFetched.
  rewrite <- (range_any_order _ _ _ l); [| |exact Hperm].
  - apply foldr_ext; [|done..]. by intros [req res] [rq rs].
  - intros k1 v1 k2 v2 [rq rs] Hne.
    by rewrite delete_delete, insert_insert_ne.
Qed.

Lemma consultCache_any_order now (cache : Results) (requests : Requests)
    result request l :
  l ≡ₚ map_to_list requests →
  foldr (λ '(req, ts) '(result, request),
           match httpServerKeyInternalAPI.GetServerKey cache req with
           | Some res =>
             if stale now res then (result, request)
             else (<[req := res]> result, request)
           | None => (result, <[req := ts]> request)
           end)
        (result, request) l
  = httpServerKeyInternalAPI.consultCache now cache requests result request.
Proof.
  intros Hperm. unfold httpServerKeyInternalAPI.consultCache.
  rewrite <- (range_any_order _ _ _ l); [| |exact Hperm].
  - apply foldr_ext; [|done..]. by intros [req ts] [rs rq].
  - intros k1 v1 k2 v2 [rs rq] Hne.
    destruct (httpServerKeyInternalAPI.GetServerKey cache k1) as [r1|],
             (httpServerKeyInternalAPI.GetServerKey cache k2) as [r2|];
      try destruct (stale now r1); try destruct (stale now r2); try done;
      by rewrite insert_insert_ne.
Qed.

Lemma absorbResponse_any_order (response : Results) result cache l :
  l ≡ₚ map_to_list response →
  foldr (λ '(req, res) '(result, cache),
           (<[req := res]> result,
            httpServerKeyInternalAPI.StoreServerKey req res cache))
        (result, cache) l
  = httpServerKeyInternalAPI.absorbResponse response result cache.
Proof.
  intros Hperm. unfold httpServerKeyInternalAPI.absorbResponse.
  rewrite <- (range_any_order _ _ _ l); [| |exact Hperm].
  - apply foldr_ext; [|done..]. by intros [req res] [rs c].
  - intros k1 v1 k2 v2 [rs c] Hne.
    unfold httpServerKeyInternalAPI.StoreServerKey.
    by rewrite (insert_insert_ne rs), (insert_insert_ne c).
Qed.

Lemma fillRequest_any_order (results : Results) keys cache l :
  l ≡ₚ map_to_list results →
  foldr (λ '(req, res) '(keys, cache),
           (<[req := res]> keys,
            httpServerKeyInternalAPI.StoreServerKey req res cache))
        (keys, cache) l
  = httpServerKeyInternalAPI.fillRequest results keys cache.
Proof.
  intros Hperm. unfold httpServerKeyInternalAPI.fillRequest.
  rewrite <- (range_any_order _ _ _ l); [| |exact Hperm].
  - apply foldr_ext; [|done..]. by intros [req res] [ks c].
  - intros k1 v1 k2 v2 [ks c] Hne.
    unfold httpServerKeyInternalAPI.StoreServerKey.
    by rewrite (insert_insert_ne ks), (insert_insert_ne c).
Qed.

(** ** The loop over the Fetchers *)

Module Waterfall.
Section Waterfall.
Import ServerKeyAPI Trace Loops.
Context {World : Type} (now : Timestamp).
Implicit Types (db : @KeyDatabase World) (o : @Outcome World)
  (tr : list Event) (requests : Requests) (results : Results).

Lemma finish_eq requests results (w : World) :
  finish requests results w =
    {| out_results := Some results; out_err := unresolved_error requests;
       out_requests := requests; out_world := w; out_trace := [] |}.
Proof.
  unfold finish, unresolved_error.
  destruct (0 <? size requests) eqn:E.
  - apply Nat.ltb_lt in E. rewrite decide_False; [done|].
    rewrite <- size_zero_empty. lia.
  - apply Nat.ltb_ge in E. rewrite decide_True; [done|].
    apply size_zero_empty. lia.
Qed.

(** The function takes exactly the steps of the relation. *)
Lemma waterfall_run db fetchers idx requests results w :
  run db idx fetchers requests results w
      (waterfall db fetchers idx requests results w).
Proof.
  revert idx requests results w.
  induction fetchers as [|fetcher rest IH]; intros idx requests results w; simpl.
  - apply run_done; auto.
  - destruct (size requests =? 0) eqn:E.
    + apply Nat.eqb_eq, size_zero_empty in E. apply run_done; auto.
    + apply Nat.eqb_neq in E. rewrite size_zero_empty in E.
      destruct (kf_FetchKeys fetcher Background requests w)
        as [w1 [ret [e|]]] eqn:F.
      * eapply run_skip; eauto.
      * rewrite mergeFetched_eq.
        destruct (db_StoreKeys db Background ret w1) as [w2 [e|]] eqn:S.
        -- eapply run_abort; eauto.
        -- eapply run_merge; eauto.
Qed.

(** The loop uses the database for its writes only. *)
Lemma waterfall_ext db db' fetchers idx requests results w :
  db_StoreKeys db = db_StoreKeys db' →
  waterfall db fetchers idx requests results w =
    waterfall db' fetchers idx requests results w.
Proof.
  intros Hdb. revert idx requests results w.
  induction fetchers as [|fetcher rest IH]; intros idx requests results w;
    simpl; [done|].
  destruct (size requests =? 0); [done|].
  destruct (kf_FetchKeys fetcher Background requests w) as [w1 [ret [e|]]].
  - by rewrite IH.
  - destruct (mergeFetched ret requests results) as [requests' results'].
    rewrite Hdb.
    destruct (db_StoreKeys db' Background ret w1) as [w2 [e|]]; [done|].
    by rewrite IH.
Qed.

Lemma merged_dom results tr :
  dom (merged now results tr) = dom results ∪ answered now tr.
Proof.
  revert results. induction tr as [|ev tr IH]; intros results; simpl.
  - by rewrite (right_id_L ∅ (∪)).
  - unfold merged in *. simpl. rewrite IH, dom_union_L.
    rewrite (comm_L (∪) (dom (contributed now ev))), (assoc_L (∪)). done.
Qed.

Lemma merged_lookup_unanswered results tr k :
  k ∉ answered now tr → merged now results tr !! k = results !! k.
Proof.
  revert results. induction tr as [|ev tr IH]; intros results Hk; [done|].
  simpl in Hk. rewrite not_elem_of_union in Hk. destruct Hk as [Hev Htr].
  unfold merged in *. simpl. rewrite IH by done.
  apply lookup_union_r. by apply not_elem_of_dom.
Qed.

Lemma answered_elem tr k :
  k ∈ answered now tr ↔ ∃ ev, ev ∈ tr ∧ k ∈ dom (contributed now ev).
Proof.
  induction tr as [|ev tr IH]; simpl.
  - split; [by intros ?%not_elem_of_empty|].
    intros (ev & Hin & _). by apply elem_of_nil in Hin.
  - rewrite elem_of_union, IH. split.
    + intros [Hk|(ev' & Hin & Hk)].
      * exists ev. split; [by left|done].
      * exists ev'. split; [by right|done].
    + intros (ev' & Hin & Hk). apply elem_of_cons in Hin as [->|Hin]; eauto.
Qed.

Lemma answered_snoc tr ev :
  answered now (tr ++ [ev]) = answered now tr ∪ dom (contributed now ev).
Proof.
  induction tr as [|ev' tr IH]; simpl.
  - by rewrite (right_id_L ∅ (∪)), (left_id_L ∅ (∪)).
  - by rewrite IH, (assoc_L (∪)).
Qed.

Lemma answered_take_S tr n ev :
  tr !! n = Some ev →
  answered now (take (S n) tr) = answered now (take n tr) ∪ dom (contributed now ev).
Proof.
  intros Hn. by rewrite (take_S_r _ _ _ Hn), answered_snoc.
Qed.

Lemma write_refused_false tr :
  write_refused tr = false ↔ ∀ c r e, DbStoreKeys c r (Some e) ∉ tr.
Proof.
  induction tr as [|ev tr IH]; simpl.
  - split; [|done]. intros _ c r e Hin. by apply elem_of_nil in Hin.
  - rewrite orb_false_iff, IH. split.
    + intros [Hev Htr] c r e Hin.
      apply elem_of_cons in Hin as [<-|Hin]; [done|]. by apply (Htr c r e).
    + intros Hall. split.
      * destruct ev as [| |c r [e|]]; try done.
        exfalso. apply (Hall c r e). by left.
      * intros c r e Hin. apply (Hall c r e). by right.
Qed.

Lemma write_refused_true tr :
  write_refused tr = true → ∃ c r e, DbStoreKeys c r (Some e) ∈ tr.
Proof.
  induction tr as [|ev tr IH]; simpl; [done|].
  intros [Hev|Htr]%orb_true_iff.
  - destruct ev as [| |c r [e|]]; try done. exists c, r, e. by left.
  - destruct (IH Htr) as (c & r & e & Hin). exists c, r, e. by right.
Qed.

Lemma answered_fetched tr :
  (∀ c rq ret err, DbFetchKeys c rq ret err ∉ tr) →
  answered now tr = fetched tr.
Proof.
  induction tr as [|ev tr IH]; intros Hread; simpl; [done|].
  rewrite IH by (intros c rq ret err Hin; apply (Hread c rq ret err); by right).
  destruct ev as [c rq ret err|i c rq ret [e|]|c r e]; simpl;
    rewrite ?dom_empty_L, ?(left_id_L ∅ (∪)); try done.
  exfalso. apply (Hread c rq ret err). by left.
Qed.

Section run_facts.
Context (db : @KeyDatabase World).

(** The caller's map at the end is the map at the start without the
    identifiers that successful Fetcher calls answered. *)
Lemma run_requests idx fetchers requests results w o :
  run db idx fetchers requests results w o →
  out_requests o = outstanding requests (answered now (out_trace o)).
Proof.
  induction 1 as [idx fetchers requests results w _
                 |idx fetcher rest requests results w w1 ret e o _ _ _ IH
                 |idx fetcher rest requests results w w1 w2 ret o _ _ _ _ IH
                 |idx fetcher rest requests results w w1 w2 ret e _ _ _].
  - rewrite finish_eq. simpl. by rewrite outstanding_empty.
  - simpl. rewrite IH. by rewrite dom_empty_L, (left_id_L ∅ (∪)).
  - simpl. rewrite IH, outstanding_outstanding.
    by rewrite dom_empty_L, (left_id_L ∅ (∪)).
  - simpl. by rewrite dom_empty_L, !(right_id_L ∅ (∪)).
Qed.

(** With every Store write accepted the loop ends at lines 78-83. *)
Lemma run_completed idx fetchers requests results w o :
  run db idx fetchers requests results w o →
  (∀ c r e, DbStoreKeys c r (Some e) ∉ out_trace o) →
  out_results o = Some (merged now results (out_trace o)) ∧
  out_err o = unresolved_error (out_requests o).
Proof.
  induction 1 as [idx fetchers requests results w _
                 |idx fetcher rest requests results w w1 ret e o _ _ _ IH
                 |idx fetcher rest requests results w w1 w2 ret o _ _ _ _ IH
                 |idx fetcher rest requests results w w1 w2 ret e _ _ _];
    intros Hok.
  - by rewrite finish_eq.
  - simpl in *. unfold merged in *. simpl.
    rewrite (left_id_L ∅ (∪)). apply IH.
    intros c r e' Hin. apply (Hok c r e'). by right.
  - simpl in *. unfold merged in *. simpl.
    rewrite (left_id_L ∅ (∪)). apply IH.
    intros c r e' Hin. apply (Hok c r e'). by do 2 right.
  - exfalso. apply (Hok Background ret e). simpl. right. left.
Qed.

(** A refused Store write ends the call with the nil batch. *)
Lemma run_aborted idx fetchers requests results w o c r e :
  run db idx fetchers requests results w o →
  DbStoreKeys c r (Some e) ∈ out_trace o →
  out_results o = None ∧ out_err o = Some (ErrStoreRetrieved e).
Proof.
  induction 1 as [idx fetchers requests results w _
                 |idx fetcher rest requests results w w1 ret e' o _ _ _ IH
                 |idx fetcher rest requests results w w1 w2 ret o _ _ _ _ IH
                 |idx fetcher rest requests results w w1 w2 ret e' _ _ _];
    intros Hin.
  - rewrite finish_eq in Hin. simpl in Hin. by apply elem_of_nil in Hin.
  - simpl in *. apply elem_of_cons in Hin as [?|Hin]; [done|]. by apply IH.
  - simpl in *. apply elem_of_cons in Hin as [?|Hin]; [done|].
    apply elem_of_cons in Hin as [?|Hin]; [done|]. by apply IH.
  - simpl in *. apply elem_of_cons in Hin as [?|Hin]; [done|].
    apply elem_of_cons in Hin as [Heq|Hin]; [|by apply elem_of_nil in Hin].
    by inversion Heq.
Qed.

(** Calls go down the configured list one position at a time. *)
Lemma run_indices idx fetchers requests results w o :
  run db idx fetchers requests results w o →
  call_indices (out_trace o) = seq idx (length (call_indices (out_trace o))) ∧
  length (call_indices (out_trace o)) ≤ length fetchers.
Proof.
  induction 1 as [idx fetchers requests results w _
                 |idx fetcher rest requests results w w1 ret e o _ _ _ IH
                 |idx fetcher rest requests results w w1 w2 ret o _ _ _ _ IH
                 |idx fetcher rest requests results w w1 w2 ret e _ _ _].
  - rewrite finish_eq. simpl. split; [done|lia].
  - simpl. destruct IH as [IH1 IH2]. split; [by rewrite <- IH1|lia].
  - simpl. destruct IH as [IH1 IH2]. split; [by rewrite <- IH1|lia].
  - simpl. split; [done|lia].
Qed.

(** When the loop starts with work to do and a Fetcher to ask, the first
    thing it does is ask that Fetcher for exactly that work. *)
Lemma run_head idx fetchers requests results w o :
  run db idx fetchers requests results w o →
  fetchers ≠ [] → requests ≠ ∅ →
  ∃ ret err,
    out_trace o !! 0 = Some (FetcherFetchKeys idx Background requests ret err).
Proof.
  destruct 1 as [? ? ? ? ? [->| ->]| | |]; intros Hf Hr; simpl; eauto; done.
Qed.

(** Every Fetcher call is handed the outstanding set of that moment,
    which is not empty. *)
Lemma run_call idx fetchers requests results w o n i c rq ret err :
  run db idx fetchers requests results w o →
  out_trace o !! n = Some (FetcherFetchKeys i c rq ret err) →
  rq = outstanding requests (answered now (take n (out_trace o))) ∧
  rq ≠ ∅ ∧ c = Background ∧
  i = idx + length (call_indices (take n (out_trace o))).
Proof.
  intros Hrun. revert n.
  induction Hrun as [idx fetchers requests results w _
                 |idx fetcher rest requests results w w1 ret' e o Hne _ _ IH
                 |idx fetcher rest requests results w w1 w2 ret' o Hne _ _ _ IH
                 |idx fetcher rest requests results w w1 w2 ret' e Hne _ _];
    intros n Hn.
  - by rewrite finish_eq in Hn.
  - simpl in *. destruct n as [|n]; simpl in *.
    + inversion Hn; subst. rewrite outstanding_empty.
      repeat split; [done|lia].
    + destruct (IH n Hn) as (Hrq & ? & ? & Hi).
      rewrite dom_empty_L, (left_id_L ∅ (∪)).
      repeat split; [done..|lia].
  - simpl in *. destruct n as [|[|n]]; simpl in *.
    + inversion Hn; subst. rewrite outstanding_empty.
      repeat split; [done|lia].
    + done.
    + destruct (IH n Hn) as (Hrq & ? & ? & Hi).
      rewrite outstanding_outstanding in Hrq.
      rewrite dom_empty_L, (left_id_L ∅ (∪)).
      repeat split; [done..|lia].
  - simpl in *. destruct n as [|[|n]]; simpl in *; [|done..].
    inversion Hn; subst. rewrite outstanding_empty.
    repeat split; [done|lia].
Qed.

(** A Fetcher that reports an error is followed by the next one in the
    list, asked for the very same identifiers. *)
Lemma run_after_error idx fetchers requests results w o n i c rq ret e :
  run db idx fetchers requests results w o →
  out_trace o !! n = Some (FetcherFetchKeys i c rq ret (Some e)) →
  S i < idx + length fetchers →
  ∃ ret' err',
    out_trace o !! S n = Some (FetcherFetchKeys (S i) Background rq ret' err').
Proof.
  intros Hrun. revert n.
  induction Hrun as [idx fetchers requests results w _
                 |idx fetcher rest requests results w w1 ret' e' o Hne _ Hrest IH
                 |idx fetcher rest requests results w w1 w2 ret' o Hne _ _ _ IH
                 |idx fetcher rest requests results w w1 w2 ret' e' Hne _ _];
    intros n Hn Hi.
  - by rewrite finish_eq in Hn.
  - simpl in *. destruct n as [|n]; simpl in *.
    + inversion Hn; subst.
      apply (run_head _ _ _ _ _ _ Hrest); [|done].
      intros ->. simpl in Hi. lia.
    + apply IH; [done|lia].
  - simpl in *. destruct n as [|[|n]]; simpl in *; [done..|].
    apply IH; [done|lia].
  - simpl in *. by destruct n as [|[|n]].
Qed.

(** The loop leaves Fetchers unasked only because nothing is
    outstanding, or because a Store write was refused. *)
Lemma run_early idx fetchers requests results w o :
  run db idx fetchers requests results w o →
  length (call_indices (out_trace o)) < length fetchers →
  out_requests o = ∅ ∨ ∃ e, out_err o = Some (ErrStoreRetrieved e).
Proof.
  induction 1 as [idx fetchers requests results w Hdone
                 |idx fetcher rest requests results w w1 ret e o _ _ _ IH
                 |idx fetcher rest requests results w w1 w2 ret o _ _ _ _ IH
                 |idx fetcher rest requests results w w1 w2 ret e _ _ _];
    intros Hlt.
  - rewrite finish_eq in *. simpl in *.
    destruct Hdone as [-> | ->]; [simpl in Hlt; lia|by left].
  - simpl in *. apply IH. lia.
  - simpl in *. apply IH. lia.
  - right. eauto.
Qed.

(** What a Fetcher returned without error is written to the Store by the
    very next call. *)
Lemma run_persist idx fetchers requests results w o n i c rq ret :
  run db idx fetchers requests results w o →
  out_trace o !! n = Some (FetcherFetchKeys i c rq ret None) →
  ∃ e, out_trace o !! S n = Some (DbStoreKeys Background ret e).
Proof.
  intros Hrun. revert n.
  induction Hrun as [idx fetchers requests results w _
                 |idx fetcher rest requests results w w1 ret' e' o _ _ _ IH
                 |idx fetcher rest requests results w w1 w2 ret' o _ _ _ _ IH
                 |idx fetcher rest requests results w w1 w2 ret' e' _ _ _];
    intros n Hn.
  - by rewrite finish_eq in Hn.
  - simpl in *. destruct n as [|n]; simpl in *; [done|]. by apply IH.
  - simpl in *. destruct n as [|[|n]]; simpl in *; [|done|by apply IH].
    inversion Hn; subst. eauto.
  - simpl in *. destruct n as [|[|n]]; simpl in *; [|done..].
    inversion Hn; subst. eauto.
Qed.

(** A call recorded at position [i] is a call of the Fetcher configured
    at position [i], and records what that Fetcher returned. *)
Lemma run_fetcher idx fetchers requests results w o n i c rq ret err :
  run db idx fetchers requests results w o →
  out_trace o !! n = Some (FetcherFetchKeys i c rq ret err) →
  ∃ fetcher w0 w1,
    idx ≤ i ∧ fetchers !! (i - idx) = Some fetcher ∧
    kf_FetchKeys fetcher Background rq w0 = (w1, (ret, err)).
Proof.
  intros Hrun. revert n.
  induction Hrun as [idx fetchers requests results w _
                 |idx fetcher rest requests results w w1 ret' e o _ Hf _ IH
                 |idx fetcher rest requests results w w1 w2 ret' o _ Hf _ _ IH
                 |idx fetcher rest requests results w w1 w2 ret' e _ Hf _];
    intros n Hn.
  - by rewrite finish_eq in Hn.
  - simpl in *. destruct n as [|n]; simpl in *.
    + inversion Hn; subst. exists fetcher, w, w1.
      by rewrite Nat.sub_diag.
    + destruct (IH n Hn) as (f & w0 & w0' & Hle & Hlook & Hcall).
      exists f, w0, w0'. split; [lia|]. split; [|done].
      replace (i - idx) with (S (i - S idx)) by lia. done.
  - simpl in *. destruct n as [|[|n]]; simpl in *.
    + inversion Hn; subst. exists fetcher, w, w1.
      by rewrite Nat.sub_diag.
    + done.
    + destruct (IH n Hn) as (f & w0 & w0' & Hle & Hlook & Hcall).
      exists f, w0, w0'. split; [lia|]. split; [|done].
      replace (i - idx) with (S (i - S idx)) by lia. done.
  - simpl in *. destruct n as [|[|n]]; simpl in *; [|done..].
    inversion Hn; subst. exists fetcher, w, w1.
    by rewrite Nat.sub_diag.
Qed.

(** The loop never reads the Store. *)
Lemma run_no_read idx fetchers requests results w o c rq ret err :
  run db idx fetchers requests results w o →
  DbFetchKeys c rq ret err ∉ out_trace o.
Proof.
  induction 1 as [idx fetchers requests results w _
                 |idx fetcher rest requests results w w1 ret' e o _ _ _ IH
                 |idx fetcher rest requests results w w1 w2 ret' o _ _ _ _ IH
                 |idx fetcher rest requests results w w1 w2 ret' e _ _ _];
    intros Hin.
  - rewrite finish_eq in Hin. by apply elem_of_nil in Hin.
  - simpl in Hin. apply elem_of_cons in Hin as [?|Hin]; [done|]. by apply IH.
  - simpl in Hin. apply elem_of_cons in Hin as [?|Hin]; [done|].
    apply elem_of_cons in Hin as [?|Hin]; [done|]. by apply IH.
  - simpl in Hin. apply elem_of_cons in Hin as [?|Hin]; [done|].
    apply elem_of_cons in Hin as [?|Hin]; [done|].
    by apply elem_of_nil in Hin.
Qed.

(** Every collaborator is called on the background context. *)
Lemma run_ctx idx fetchers requests results w o ev :
  run db idx fetchers requests results w o →
  ev ∈ out_trace o → event_ctx ev = Background.
Proof.
  induction 1 as [idx fetchers requests results w _
                 |idx fetcher rest requests results w w1 ret e o _ _ _ IH
                 |idx fetcher rest requests results w w1 w2 ret o _ _ _ _ IH
                 |idx fetcher rest requests results w w1 w2 ret e _ _ _];
    intros Hin.
  - rewrite finish_eq in Hin. by apply elem_of_nil in Hin.
  - simpl in Hin. apply elem_of_cons in Hin as [->|Hin]; [done|]. by apply IH.
  - simpl in Hin. apply elem_of_cons in Hin as [->|Hin]; [done|].
    apply elem_of_cons in Hin as [->|Hin]; [done|]. by apply IH.
  - simpl in Hin. apply elem_of_cons in Hin as [->|Hin]; [done|].
    apply elem_of_cons in Hin as [->|Hin]; [done|].
    by apply elem_of_nil in Hin.
Qed.

End run_facts.
End Waterfall.
End Waterfall.

(** ** [ServerKeyAPI.FetchKeys] as a whole *)

Module KeyRingFacts.
Section KeyRingFacts.
Import ServerKeyAPI Trace Loops Waterfall.
Context {World : Type}.
Implicit Types (s : @KeyRing World) (o : @Outcome World)
  (requests : Requests) (results : Results).

(** One Store read, then the loop over the Fetchers started from what the
    read contributed. *)
Lemma FetchKeys_run s ctx now requests w :
  ∃ w1 dbResults err o',
    db_FetchKeys (KeyDatabase_ s) Background requests w = (w1, (dbResults, err)) ∧
    FetchKeys s ctx now requests w =
      emit [DbFetchKeys Background requests dbResults err] o' ∧
    run (KeyDatabase_ s) 0 (KeyFetchers s)
        (outstanding requests
           (dom (contributed now (DbFetchKeys Background requests dbResults err))))
        (contributed now (DbFetchKeys Background requests dbResults err))
        w1 o'.
Proof.
  unfold FetchKeys.
  destruct (db_FetchKeys (KeyDatabase_ s) Background requests w)
    as [w1 [dbResults [e|]]] eqn:Hread.
  - exists w1, dbResults, (Some e). eexists. split; [done|]. split; [done|].
    simpl. rewrite dom_empty_L, outstanding_empty. apply waterfall_run.
  - exists w1, dbResults, None. eexists. split; [done|].
    rewrite consultStore_eq, (right_id_L ∅ (∪)). split; [done|].
    simpl. apply waterfall_run.
Qed.

Lemma FetchKeys_requests s ctx now requests w :
  out_requests (FetchKeys s ctx now requests w) =
    outstanding requests (answered now (out_trace (FetchKeys s ctx now requests w))).
Proof.
  destruct (FetchKeys_run s ctx now requests w)
    as (w1 & dbResults & err & o' & _ & -> & Hrun).
  simpl. rewrite (run_requests now _ _ _ _ _ _ _ Hrun).
  by rewrite outstanding_outstanding.
Qed.

Lemma FetchKeys_completed s ctx now requests w :
  (∀ c r e, DbStoreKeys c r (Some e) ∉ out_trace (FetchKeys s ctx now requests w)) →
  out_results (FetchKeys s ctx now requests w) =
    Some (merged now ∅ (out_trace (FetchKeys s ctx now requests w))) ∧
  out_err (FetchKeys s ctx now requests w) =
    unresolved_error (out_requests (FetchKeys s ctx now requests w)).
Proof.
  destruct (FetchKeys_run s ctx now requests w)
    as (w1 & dbResults & err & o' & _ & -> & Hrun).
  simpl. intros Hok.
  destruct (run_completed now _ _ _ _ _ _ _ Hrun) as [Hres Herr].
  - intros c r e Hin. apply (Hok c r e). by right.
  - split; [|done]. rewrite Hres. unfold merged. simpl.
    by rewrite (right_id_L ∅ (∪)).
Qed.

Lemma FetchKeys_aborted s ctx now requests w c r e :
  DbStoreKeys c r (Some e) ∈ out_trace (FetchKeys s ctx now requests w) →
  out_results (FetchKeys s ctx now requests w) = None ∧
  out_err (FetchKeys s ctx now requests w) = Some (ErrStoreRetrieved e).
Proof.
  destruct (FetchKeys_run s ctx now requests w)
    as (w1 & dbResults & err & o' & _ & -> & Hrun).
  simpl. intros Hin. apply elem_of_cons in Hin as [?|Hin]; [done|].
  eapply run_aborted; eauto.
Qed.

(** The call either ran to lines 78-83 or was cut short by line 74. *)
Lemma FetchKeys_verdict s ctx now requests w :
  let o := FetchKeys s ctx now requests w in
  (write_refused (out_trace o) = false ∧
   out_results o = Some (merged now ∅ (out_trace o)) ∧
   out_err o = unresolved_error (out_requests o)) ∨
  (write_refused (out_trace o) = true ∧
   out_results o = None ∧ ∃ e, out_err o = Some (ErrStoreRetrieved e)).
Proof.
  intros o. destruct (write_refused (out_trace o)) eqn:Hw.
  - right. split; [done|].
    destruct (write_refused_true _ Hw) as (c & r & e & Hin).
    destruct (FetchKeys_aborted s ctx now requests w c r e Hin). eauto.
  - left. split; [done|]. apply FetchKeys_completed.
    by apply write_refused_false.
Qed.

(** In the trace of a call only the first event is a Store read. *)
Lemma FetchKeys_fetched s ctx now requests w :
  ∃ read tr,
    out_trace (FetchKeys s ctx now requests w) = read :: tr ∧
    fetched (read :: tr) = fetched tr ∧
    answered now tr = fetched tr ∧
    merged now ∅ (read :: tr) = merged now (contributed now read) tr.
Proof.
  destruct (FetchKeys_run s ctx now requests w)
    as (w1 & dbResults & err & o' & _ & -> & Hrun).
  eexists _, _. split; [done|]. split; [done|]. split.
  - apply answered_fetched. intros c rq ret e.
    eapply run_no_read; eauto.
  - unfold merged. simpl. by rewrite (right_id_L ∅ (∪)).
Qed.

End KeyRingFacts.
End KeyRingFacts.

(** ** The scenarios of the spec, run *)

Module Scenarios.
Import ServerKeyAPI Trace Scenario.

(** At time 50 a Store entry valid until 100 is served without a Fetcher
    being asked. *)
Example fresh_entry_served_from_store :
  let o := FetchKeys {| KeyFetchers := [Oracle {[K1 := R200]}];
                        KeyDatabase_ := MemStore |}
                     Background 50%N {[K1 := 50%N]} {[K1 := R100]} in
  out_results o = Some {[K1 := R100]} ∧ out_err o = None ∧
  out_trace o = [DbFetchKeys Background {[K1 := 50%N]} {[K1 := R100]} None].
Proof. intros o. repeat split. Qed.

(** At time 150 the same entry is skipped, the Fetcher is asked, and its
    answer replaces the entry in the Store. *)
Example stale_entry_fetched_again :
  let o := FetchKeys {| KeyFetchers := [Oracle {[K1 := R200]}];
                        KeyDatabase_ := MemStore |}
                     Background 150%N {[K1 := 150%N]} {[K1 := R100]} in
  out_results o = Some {[K1 := R200]} ∧ out_err o = None ∧
  call_indices (out_trace o) = [0] ∧ out_world o !! K1 = Some R200.
Proof. intros o. repeat split. Qed.

(** A Fetcher that resolves part of the batch and a second one that
    resolves the rest: the union is returned, the first asked first. *)
Example two_fetchers_give_the_union :
  let o := FetchKeys {| KeyFetchers := [Oracle {[K1 := R100]}; Oracle {[K2 := R200]}];
                        KeyDatabase_ := MemStore |}
                     Background 50%N {[K1 := 50%N; K2 := 50%N]} ∅ in
  out_results o = Some {[K1 := R100; K2 := R200]} ∧ out_err o = None ∧
  out_trace o =
    [DbFetchKeys Background {[K1 := 50%N; K2 := 50%N]} ∅ None;
     FetcherFetchKeys 0 Background {[K1 := 50%N; K2 := 50%N]} {[K1 := R100]} None;
     DbStoreKeys Background {[K1 := R100]} None;
     FetcherFetchKeys 1 Background {[K2 := 50%N]} {[K2 := R200]} None;
     DbStoreKeys Background {[K2 := R200]} None].
Proof. intros o. repeat split. Qed.

(** A store that refuses cancelled contexts still takes the write of a
    caller whose context is cancelled. *)
Example cancelled_caller_still_stores :
  db_StoreKeys FussyStore cancelled {[K2 := R200]} ∅ =
    (∅, Some (ErrCollaborator "context canceled")) ∧
  StoreKeys {| KeyFetchers := []; KeyDatabase_ := FussyStore |}
            cancelled {[K2 := R200]} ∅ = ({[K2 := R200]}, None).
Proof. repeat split. Qed.

(** A remote failure makes the facade return the error alone, cache hits
    included, and leaves the cache as it was. *)
Example remote_failure_returns_error_only :
  let h := {| httpServerKeyInternalAPI.PostJSON_input :=
                λ _ _ (w : Results), (w, Some (ErrCollaborator "unreachable"));
              httpServerKeyInternalAPI.PostJSON_query :=
                λ _ _ (w : Results), (w, (∅, Some (ErrCollaborator "unreachable"))) |} in
  let o := httpServerKeyInternalAPI.FetchKeys h Background 50%N
             {[K1 := 50%N; K2 := 50%N]} {[K1 := R100]} ∅ in
  httpServerKeyInternalAPI.ft_results o = None ∧
  httpServerKeyInternalAPI.ft_err o = Some (ErrCollaborator "unreachable") ∧
  httpServerKeyInternalAPI.ft_cache o = {[K1 := R100]}.
Proof. intros h o. repeat split. Qed.

End Scenarios.

(** * Properties of the specification *)

Import ServerKeyAPI Trace Loops Waterfall KeyRingFacts.

(** ** C1 *)

(** C1. A stored or cached result consulted by [FetchKeys] is added to the
    output exactly when it carries an explicit expiry timestamp or the
    current time is not past its [ValidUntilTS]; this holds at the loop of
    the Key Ring (lines 51-57) and at the loop of the facade (lines 94-103),
    and it carries over to the batch that is returned as long as no Fetcher,
    respectively the remote response, supplied that identifier itself. *)
Theorem usable_results_are_served :
  (∀ now (dbResults : Results) (requests : Requests) req res,
     dbResults !! req = Some res →
     (consultStore now dbResults requests ∅).2 !! req = Some res ↔ usable now res) ∧
  (∀ now (cache : Results) (requests : Requests) req ts res,
     requests !! req = Some ts →
     httpServerKeyInternalAPI.GetServerKey cache req = Some res →
     (httpServerKeyInternalAPI.consultCache now cache requests ∅ ∅).1 !! req = Some res
       ↔ usable now res) ∧
  (∀ (World : Type) (s : @KeyRing World) ctx now (requests : Requests) w w1
     (dbResults rs : Results) req res,
     db_FetchKeys (KeyDatabase_ s) Background requests w = (w1, (dbResults, None)) →
     dbResults !! req = Some res →
     out_results (FetchKeys s ctx now requests w) = Some rs →
     req ∉ fetched (out_trace (FetchKeys s ctx now requests w)) →
     rs !! req = Some res ↔ usable now res) ∧
  (∀ (World : Type) (h : @httpServerKeyInternalAPI.httpClient World) ctx now
     (requests : Requests) (cache rs : Results) w req ts res c request
     (response : Results) err,
     requests !! req = Some ts →
     httpServerKeyInternalAPI.GetServerKey cache req = Some res →
     httpServerKeyInternalAPI.ft_results
       (httpServerKeyInternalAPI.FetchKeys h ctx now requests cache w) = Some rs →
     httpServerKeyInternalAPI.ft_calls
       (httpServerKeyInternalAPI.FetchKeys h ctx now requests cache w) =
       [httpServerKeyInternalAPI.QueryPublicKeysCall c request response err] →
     response !! req = None →
     rs !! req = Some res ↔ usable now res).
Proof.
  split; [|split; [|split]].
  - intros now dbResults requests req res Hres.
    rewrite consultStore_eq. simpl.
    rewrite (right_id_L ∅ (∪)), usable_hits_lookup, Hres, <- stale_false_usable.
    destruct (stale now res); naive_solver.
  - intros now cache requests req ts res Hreq Hres.
    unfold httpServerKeyInternalAPI.GetServerKey in Hres.
    rewrite consultCache_eq. simpl.
    rewrite requested_lookup, Hreq, usable_hits_lookup, Hres, <- stale_false_usable.
    destruct (stale now res); naive_solver.
  - intros World s ctx now requests w w1 dbResults rs req res Hread Hres Hout Hfetch.
    destruct (FetchKeys_run s ctx now requests w)
      as (w1' & dbResults' & err & o' & Hread' & Heq & Hrun).
    rewrite Hread in Hread'. inversion Hread'; subst w1' dbResults' err. clear Hread'.
    rewrite Heq in Hout, Hfetch. simpl in Hout, Hfetch.
    assert (Hok : ∀ c r e, DbStoreKeys c r (Some e) ∉ out_trace o').
    { intros c r e Hin.
      destruct (run_aborted _ _ _ _ _ _ _ _ _ _ Hrun Hin) as [Hnone _]. congruence. }
    destruct (run_completed now _ _ _ _ _ _ _ Hrun Hok) as [Hrs _].
    rewrite Hout in Hrs. inversion Hrs; subst rs. clear Hrs.
    rewrite merged_lookup_unanswered.
    + rewrite usable_hits_lookup, Hres, <- stale_false_usable.
      destruct (stale now res); naive_solver.
    + rewrite answered_fetched; [done|].
      intros c rq ret e. eapply run_no_read; eauto.
  - intros World h ctx now requests cache rs w req ts res c request response err
      Hreq Hres Hout Hcalls Hresp.
    unfold httpServerKeyInternalAPI.GetServerKey in Hres.
    unfold httpServerKeyInternalAPI.FetchKeys in Hout, Hcalls.
    rewrite consultCache_eq in Hout, Hcalls.
    destruct (httpServerKeyInternalAPI.QueryPublicKeys h Background
                (outstanding requests (dom cache)) w)
      as [w1 [response' [e|]]]; [done|].
    rewrite absorbResponse_eq in Hout, Hcalls. simpl in Hout, Hcalls.
    inversion Hout; subst rs. inversion Hcalls; subst.
    rewrite lookup_union_r by done.
    rewrite requested_lookup, Hreq, usable_hits_lookup, Hres, <- stale_false_usable.
    destruct (stale now res); naive_solver.
Qed.

Lemma usable_results_are_served_witness :
  let s := {| KeyFetchers := [Scenario.Oracle {[Scenario.K2 := Scenario.R200]}];
              KeyDatabase_ := Scenario.MemStore |} in
  let requests : Requests := {[Scenario.K1 := 150%N; Scenario.K2 := 150%N]} in
  let held : Results := {[Scenario.K1 := Scenario.R100x]} in
  (consultStore 150%N held requests ∅).2 !! Scenario.K1 = Some Scenario.R100x ∧
  (httpServerKeyInternalAPI.consultCache 150%N held requests ∅ ∅).1 !! Scenario.K1
    = Some Scenario.R100x ∧
  out_results (FetchKeys s Scenario.cancelled 150%N requests held) =
    Some {[Scenario.K1 := Scenario.R100x; Scenario.K2 := Scenario.R200]} ∧
  ({[Scenario.K1 := Scenario.R100x; Scenario.K2 := Scenario.R200]} : Results)
    !! Scenario.K1 = Some Scenario.R100x.
Proof.
  intros s requests held.
  assert (Husable : usable 150%N Scenario.R100x) by (left; vm_compute; lia).
  destruct usable_results_are_served as (Hstore & Hcache & Hring & _).
  split; [|split; [|split]].
  - apply (Hstore 150%N held requests Scenario.K1 Scenario.R100x); [reflexivity|done].
  - apply (Hcache 150%N held requests Scenario.K1 150%N Scenario.R100x);
      [reflexivity|reflexivity|done].
  - reflexivity.
  - apply (Hring Results s Scenario.cancelled 150%N requests held held
                 (requested requests held)); [reflexivity..| |done].
    apply (bool_decide_unpack _). vm_compute. exact I.
Defined.

(** ** C2 *)

(** The facade's loop puts no identifier that has a cache entry into the
    remote request, whether or not the entry passed the validity test. *)
Lemma facade_forwards_cache_misses_only {World : Type}
    (h : @httpServerKeyInternalAPI.httpClient World) ctx now
    (requests : Requests) (cache : Results) w :
  ∃ response err,
    httpServerKeyInternalAPI.ft_calls
      (httpServerKeyInternalAPI.FetchKeys h ctx now requests cache w) =
      [httpServerKeyInternalAPI.QueryPublicKeysCall Background
         (outstanding requests (dom cache)) response err].
Proof.
  unfold httpServerKeyInternalAPI.FetchKeys. rewrite consultCache_eq.
  destruct (httpServerKeyInternalAPI.QueryPublicKeys h Background
              (outstanding requests (dom cache)) w)
    as [w1 [response [e|]]]; [by eauto|].
  rewrite absorbResponse_eq. by eauto.
Qed.

(** The Key Ring's loop leaves an identifier whose Store entry is stale in
    the outstanding set and out of the output. *)
Lemma ring_keeps_stale_identifier_outstanding now (dbResults : Results)
    (requests : Requests) req ts res :
  requests !! req = Some ts →
  dbResults !! req = Some res →
  ¬ usable now res →
  (consultStore now dbResults requests ∅).1 !! req = Some ts ∧
  (consultStore now dbResults requests ∅).2 !! req = None.
Proof.
  intros Hreq Hres Hstale. apply stale_true_not_usable in Hstale.
  rewrite consultStore_eq. simpl.
  assert (Hhit : usable_hits now dbResults !! req = None)
    by by rewrite usable_hits_lookup, Hres, Hstale.
  split.
  - rewrite outstanding_lookup, decide_False; [done|].
    by apply not_elem_of_dom.
  - by rewrite (right_id_L ∅ (∪)).
Qed.

(** The facade's loop puts an identifier whose cache entry is stale neither
    into the output nor into the remote request. *)
Lemma facade_forgets_stale_identifier now (cache : Results)
    (requests : Requests) req res :
  httpServerKeyInternalAPI.GetServerKey cache req = Some res →
  ¬ usable now res →
  (httpServerKeyInternalAPI.consultCache now cache requests ∅ ∅).1 !! req = None ∧
  (httpServerKeyInternalAPI.consultCache now cache requests ∅ ∅).2 !! req = None.
Proof.
  unfold httpServerKeyInternalAPI.GetServerKey.
  intros Hres Hstale. apply stale_true_not_usable in Hstale.
  rewrite consultCache_eq. simpl. split.
  - rewrite requested_lookup, usable_hits_lookup, Hres, Hstale.
    by destruct (requests !! req).
  - rewrite outstanding_lookup, decide_True; [done|].
    apply elem_of_dom. eauto.
Qed.

(** C2. [K1] is cached without expiry marker and valid until 100; at time
    150 it is requested.  The facade neither returns the stale entry nor
    asks the remote side for [K1]: the remote request is empty and the call
    succeeds with an empty batch, although the remote side holds a fresh
    key.  The Key Ring, given the same entry in its Store, asks its Fetcher
    for [K1] and returns the fresh key. *)
Theorem facade_drops_stale_identifier :
  let facade :=
    httpServerKeyInternalAPI.FetchKeys
      (Scenario.Remote {[Scenario.K1 := Scenario.R200]}) Background 150%N
      {[Scenario.K1 := 150%N]} {[Scenario.K1 := Scenario.R100]} ∅ in
  let ring :=
    FetchKeys {| KeyFetchers := [Scenario.Oracle {[Scenario.K1 := Scenario.R200]}];
                 KeyDatabase_ := Scenario.MemStore |}
              Background 150%N {[Scenario.K1 := 150%N]}
              {[Scenario.K1 := Scenario.R100]} in
  httpServerKeyInternalAPI.ft_calls facade =
    [httpServerKeyInternalAPI.QueryPublicKeysCall Background ∅ ∅ None] ∧
  httpServerKeyInternalAPI.ft_results facade = Some ∅ ∧
  httpServerKeyInternalAPI.ft_err facade = None ∧
  out_trace ring =
    [DbFetchKeys Background {[Scenario.K1 := 150%N]}
                 {[Scenario.K1 := Scenario.R100]} None;
     FetcherFetchKeys 0 Background {[Scenario.K1 := 150%N]}
                      {[Scenario.K1 := Scenario.R200]} None;
     DbStoreKeys Background {[Scenario.K1 := Scenario.R200]} None] ∧
  out_results ring = Some {[Scenario.K1 := Scenario.R200]} ∧
  out_err ring = None.
Proof. intros facade ring. repeat split. Qed.

(** ** C3 *)

(** C3, as amended.  Provided no Store write is refused during the call,
    [FetchKeys] returns a batch holding exactly the identifiers resolved by
    the Store read or by a Fetcher; if requested identifiers are missing
    from it the error reports exactly their number, and if none is missing
    there is no error and the batch covers the whole request. *)
Theorem FetchKeys_reports_unresolved {World : Type} (s : @KeyRing World)
    (ctx : Context) (now : Timestamp) (requests : Requests) (w : World) :
  write_refused (out_trace (FetchKeys s ctx now requests w)) = false →
  reports_unresolved now requests (FetchKeys s ctx now requests w).
Proof.
  intros Hok. rewrite write_refused_false in Hok.
  destruct (FetchKeys_completed s ctx now requests w Hok) as [Hres Herr].
  pose proof (FetchKeys_requests s ctx now requests w) as Hreq.
  exists (merged now ∅ (out_trace (FetchKeys s ctx now requests w))).
  rewrite merged_dom, dom_empty_L, (left_id_L ∅ (∪)).
  split; [done|]. split; [done|]. simpl.
  rewrite <- Hreq, Herr. unfold unresolved_error.
  split; intros Hun.
  - by rewrite decide_False.
  - rewrite decide_True by done. split; [done|].
    rewrite Hreq in Hun. by apply outstanding_none_left in Hun.
Qed.

Lemma FetchKeys_reports_unresolved_witness :
  reports_unresolved 50%N
    {[Scenario.K1 := 50%N; Scenario.K2 := 50%N]}
    (FetchKeys {| KeyFetchers := [Scenario.Down;
                                  Scenario.Oracle {[Scenario.K1 := Scenario.R200]}];
                  KeyDatabase_ := Scenario.MemStore |}
               Background 50%N
               {[Scenario.K1 := 50%N; Scenario.K2 := 50%N]} ∅).
Proof.
  apply FetchKeys_reports_unresolved. reflexivity.
Defined.

(** C3, as stated, fails when a Store write is refused: the only Fetcher
    resolves [K1] of [{K1, K2}], the Store refuses the write; the Store has
    been consulted, every Fetcher has been tried and [K2] is unresolved, yet
    no batch is returned and the error is the Store's, not the count. *)
Lemma FetchKeys_refused_write_returns_no_batch :
  let o := FetchKeys {| KeyFetchers := [Scenario.Oracle {[Scenario.K1 := Scenario.R200]}];
                        KeyDatabase_ := Scenario.ReadOnlyStore |}
                     Background 50%N
                     {[Scenario.K1 := 50%N; Scenario.K2 := 50%N]} ∅ in
  ¬ reports_unresolved 50%N {[Scenario.K1 := 50%N; Scenario.K2 := 50%N]} o ∧
  call_indices (out_trace o) = [0] ∧
  out_requests o = {[Scenario.K2 := 50%N]} ∧
  out_results o = None ∧
  out_err o = Some (ErrStoreRetrieved (ErrCollaborator "disk full")).
Proof.
  intros o. split.
  - intros (rs & Hrs & _).
    assert (Hnone : out_results o = None) by reflexivity. congruence.
  - repeat split.
Qed.

(** ** C4 *)

(** C4. Within one [FetchKeys] call the Fetchers are called in the order of
    the configured list, without a gap and at most once each; every call
    is handed exactly the identifiers outstanding at that moment, of which
    there is at least one; a call that returns an error resolves nothing
    and is followed by the next Fetcher of the list, asked for the same
    identifiers; and Fetchers are left uncalled only when nothing is
    outstanding (or a Store write was refused). *)
Theorem fetchers_tried_in_order {World : Type} (s : @KeyRing World)
    (ctx : Context) (now : Timestamp) (requests : Requests) (w : World) :
  let o := FetchKeys s ctx now requests w in
  let tr := out_trace o in
  call_indices tr = seq 0 (length (call_indices tr)) ∧
  length (call_indices tr) ≤ length (KeyFetchers s) ∧
  (∀ n i c rq ret err,
     tr !! n = Some (FetcherFetchKeys i c rq ret err) →
     rq = outstanding requests (answered now (take n tr)) ∧ rq ≠ ∅ ∧
     i = length (call_indices (take n tr)) ∧
     ∃ fetcher w0 w1,
       KeyFetchers s !! i = Some fetcher ∧
       kf_FetchKeys fetcher Background rq w0 = (w1, (ret, err))) ∧
  (∀ n i c rq ret e,
     tr !! n = Some (FetcherFetchKeys i c rq ret (Some e)) →
     answered now (take (S n) tr) = answered now (take n tr) ∧
     (S i < length (KeyFetchers s) →
      ∃ ret' err',
        tr !! S n = Some (FetcherFetchKeys (S i) Background rq ret' err'))) ∧
  (∀ rs, out_results o = Some rs → rs = merged now ∅ tr) ∧
  (length (call_indices tr) < length (KeyFetchers s) →
   out_requests o = ∅ ∨ ∃ e, out_err o = Some (ErrStoreRetrieved e)).
Proof.
  intros o tr. subst tr o.
  destruct (FetchKeys_run s ctx now requests w)
    as (w1 & dbResults & err0 & o' & _ & Heq & Hrun).
  pose proof (FetchKeys_verdict s ctx now requests w) as Hverdict.
  rewrite Heq in *. clear Heq.
  cbn [emit out_trace out_results out_err out_requests app] in *.
  destruct (run_indices _ _ _ _ _ _ _ Hrun) as [Hseq Hlen].
  split; [done|]. split; [done|]. split; [|split; [|split]].
  - intros n i c rq ret err Hn. destruct n as [|n]; [done|]. simpl in Hn.
    destruct (run_call now _ _ _ _ _ _ _ _ _ _ _ _ _ Hrun Hn) as (Hrq & Hne & _ & Hi).
    destruct (run_fetcher _ _ _ _ _ _ _ _ _ _ _ _ _ Hrun Hn)
      as (fetcher & w0 & w0' & _ & Hlook & Hcall).
    rewrite outstanding_outstanding in Hrq. rewrite Nat.sub_0_r in Hlook.
    simpl. repeat split; try done. by eauto.
  - intros n i c rq ret e Hn. split.
    + rewrite (answered_take_S now _ _ _ Hn). simpl.
      by rewrite dom_empty_L, (right_id_L ∅ (∪)).
    + destruct n as [|n]; [done|]. simpl in Hn. intros Hi.
      apply (run_after_error _ _ _ _ _ _ _ _ _ _ _ _ _ Hrun Hn). simpl. lia.
  - intros rs Hrs.
    destruct Hverdict as [(_ & Hres & _)|(_ & Hres & _)]; congruence.
  - intros Hlt. by apply (run_early _ _ _ _ _ _ _ Hrun).
Qed.

Lemma fetchers_tried_in_order_witness :
  let s := {| KeyFetchers := [Scenario.Down;
                              Scenario.Oracle {[Scenario.K1 := Scenario.R200]};
                              Scenario.Down];
              KeyDatabase_ := Scenario.MemStore |} in
  let requests : Requests := {[Scenario.K1 := 50%N]} in
  ∃ ret' err',
    out_trace (FetchKeys s Background 50%N requests ∅) !! 2 =
      Some (FetcherFetchKeys 1 Background requests ret' err').
Proof.
  intros s requests.
  destruct (fetchers_tried_in_order s Background 50%N requests ∅)
    as (_ & _ & _ & Hnext & _).
  destruct (Hnext 1 0 Background requests ∅ (ErrCollaborator "unreachable"))
    as [_ Hfollow].
  - reflexivity.
  - apply Hfollow. vm_compute. lia.
Defined.

(** ** C5 *)

(** C5. What a Fetcher returned without error is written to the Store by
    the very next call, before any other Fetcher is asked.  A failed Store
    read is not fatal: the call proceeds exactly as if the read had found
    nothing.  A refused Store write ends the call with no batch and an
    error that wraps the Store's, which is never the unresolved-keys
    error. *)
Theorem fetched_keys_persisted_at_once {World : Type} (s : @KeyRing World)
    (ctx : Context) (now : Timestamp) (requests : Requests) (w : World) :
  let o := FetchKeys s ctx now requests w in
  (∀ n i c rq ret,
     out_trace o !! n = Some (FetcherFetchKeys i c rq ret None) →
     ∃ e, out_trace o !! S n = Some (DbStoreKeys Background ret e)) ∧
  (∀ (s' : @KeyRing World) w1 dbResults e,
     KeyFetchers s' = KeyFetchers s →
     db_StoreKeys (KeyDatabase_ s') = db_StoreKeys (KeyDatabase_ s) →
     db_FetchKeys (KeyDatabase_ s) Background requests w = (w1, (dbResults, Some e)) →
     db_FetchKeys (KeyDatabase_ s') Background requests w = (w1, (∅, None)) →
     let o' := FetchKeys s' ctx now requests w in
     out_results o = out_results o' ∧ out_err o = out_err o' ∧
     out_requests o = out_requests o' ∧ out_world o = out_world o' ∧
     tail (out_trace o) = tail (out_trace o')) ∧
  (∀ c r e,
     DbStoreKeys c r (Some e) ∈ out_trace o →
     out_results o = None ∧ out_err o = Some (ErrStoreRetrieved e) ∧
     ∀ n, out_err o ≠ Some (ErrFetchFailed n)).
Proof.
  intros o. subst o. split; [|split].
  - destruct (FetchKeys_run s ctx now requests w)
      as (w1 & dbResults & err0 & o' & _ & -> & Hrun).
    intros n i c rq ret Hn. destruct n as [|n]; [done|]. simpl in *.
    by apply (run_persist _ _ _ _ _ _ _ _ _ _ _ _ Hrun Hn).
  - intros s' w1 dbResults e Hfetchers Hstore Hread Hread'.
    unfold FetchKeys. rewrite Hread, Hread', Hfetchers.
    unfold consultStore. rewrite map_fold_empty.
    by rewrite (waterfall_ext _ _ _ _ _ _ _ Hstore).
  - intros c r e Hin.
    destruct (FetchKeys_aborted s ctx now requests w c r e Hin) as [Hres Herr].
    split; [done|]. split; [done|]. intros n. by rewrite Herr.
Qed.

Lemma fetched_keys_persisted_at_once_witness :
  let fetchers := [Scenario.Oracle {[Scenario.K1 := Scenario.R200]}] in
  let s := {| KeyFetchers := fetchers; KeyDatabase_ := Scenario.UnreadableStore |} in
  let s' := {| KeyFetchers := fetchers; KeyDatabase_ := Scenario.MemStore |} in
  let requests : Requests := {[Scenario.K1 := 50%N]} in
  out_results (FetchKeys s Background 50%N requests ∅) =
    out_results (FetchKeys s' Background 50%N requests ∅) ∧
  ∃ e, out_trace (FetchKeys s Background 50%N requests ∅) !! 2 =
         Some (DbStoreKeys Background {[Scenario.K1 := Scenario.R200]} e).
Proof.
  intros fetchers s s' requests.
  destruct (fetched_keys_persisted_at_once s Background 50%N requests ∅)
    as (Hpersist & Hread & _).
  split.
  - apply (Hread s' ∅ ∅ (ErrCollaborator "read failed")); reflexivity.
  - apply (Hpersist 1 0 Background requests). reflexivity.
Defined.

(** ** C6 *)

(** C6. In the facade's [FetchKeys] an identifier whose cache entry passes
    the validity test is taken from the cache and is not part of the remote
    request; when the remote call returns without error the cached result
    is what the output holds for it (unless the response itself carries that
    identifier), and every result of the response is in the output and in
    the cache, whatever the cache held before. *)
Theorem facade_answers_from_cache {World : Type}
    (h : @httpServerKeyInternalAPI.httpClient World)
    (ctx : Context) (now : Timestamp) (requests : Requests) (cache : Results)
    (w : World) :
  let o := httpServerKeyInternalAPI.FetchKeys h ctx now requests cache w in
  ∃ request response err,
    httpServerKeyInternalAPI.ft_calls o =
      [httpServerKeyInternalAPI.QueryPublicKeysCall Background request response err] ∧
    httpServerKeyInternalAPI.QueryPublicKeys h Background request w =
      (httpServerKeyInternalAPI.ft_world o, (response, err)) ∧
    (∀ req ts res,
       requests !! req = Some ts →
       httpServerKeyInternalAPI.GetServerKey cache req = Some res →
       usable now res →
       request !! req = None ∧
       (httpServerKeyInternalAPI.consultCache now cache requests ∅ ∅).1 !! req
         = Some res ∧
       (∀ rs, httpServerKeyInternalAPI.ft_results o = Some rs →
              response !! req = None → rs !! req = Some res)) ∧
    (err = None →
     ∃ rs, httpServerKeyInternalAPI.ft_results o = Some rs ∧
           httpServerKeyInternalAPI.ft_err o = None ∧
           rs = response ∪ requested requests (usable_hits now cache) ∧
           httpServerKeyInternalAPI.ft_cache o = response ∪ cache ∧
           ∀ req res,
             response !! req = Some res →
             rs !! req = Some res ∧
             httpServerKeyInternalAPI.GetServerKey
               (httpServerKeyInternalAPI.ft_cache o) req = Some res).
Proof.
  intros o. subst o. unfold httpServerKeyInternalAPI.FetchKeys.
  rewrite consultCache_eq.
  destruct (httpServerKeyInternalAPI.QueryPublicKeys h Background
              (outstanding requests (dom cache)) w)
    as [w1 [response err]] eqn:Hcall.
  exists (outstanding requests (dom cache)), response, err.
  assert (Hhit : ∀ req ts res,
             requests !! req = Some ts → cache !! req = Some res → usable now res →
             requested requests (usable_hits now cache) !! req = Some res).
  { intros req ts res Hreq Hres Huse. apply stale_false_usable in Huse.
    by rewrite requested_lookup, Hreq, usable_hits_lookup, Hres, Huse. }
  assert (Hmiss : ∀ req res,
             cache !! req = Some res →
             outstanding requests (dom cache) !! req = None).
  { intros req res Hres. rewrite outstanding_lookup.
    rewrite decide_True; [done|]. apply elem_of_dom. eauto. }
  unfold httpServerKeyInternalAPI.GetServerKey.
  destruct err as [e|]; [|rewrite absorbResponse_eq]; simpl.
  - split; [done|]. split; [done|]. split; [|done].
    intros req ts res Hreq Hres Huse. split; [by eapply Hmiss|].
    split; [by eapply Hhit|]. done.
  - split; [done|]. split; [done|]. split.
    + intros req ts res Hreq Hres Huse. split; [by eapply Hmiss|].
      split; [by eapply Hhit|].
      intros rs Hrs Hresp. inversion Hrs; subst rs.
      rewrite lookup_union_r by done. by eapply Hhit.
    + intros _. eexists. split; [done|]. split; [done|]. split; [done|].
      split; [done|]. intros req res Hresp.
      split; by apply lookup_union_Some_l.
Qed.

Lemma facade_answers_from_cache_witness :
  let o := httpServerKeyInternalAPI.FetchKeys
             (Scenario.Remote {[Scenario.K1 := Scenario.R200;
                                Scenario.K2 := Scenario.R200]})
             Background 50%N
             {[Scenario.K1 := 50%N; Scenario.K2 := 50%N]}
             {[Scenario.K1 := Scenario.R100]} ∅ in
  httpServerKeyInternalAPI.ft_calls o =
    [httpServerKeyInternalAPI.QueryPublicKeysCall Background
       {[Scenario.K2 := 50%N]} {[Scenario.K2 := Scenario.R200]} None] ∧
  httpServerKeyInternalAPI.ft_results o =
    Some {[Scenario.K1 := Scenario.R100; Scenario.K2 := Scenario.R200]}.
Proof.
  intros o.
  destruct (facade_answers_from_cache
              (Scenario.Remote {[Scenario.K1 := Scenario.R200;
                                 Scenario.K2 := Scenario.R200]})
              Background 50%N
              {[Scenario.K1 := 50%N; Scenario.K2 := 50%N]}
              {[Scenario.K1 := Scenario.R100]} ∅)
    as (request & response & err & Hcalls & Hquery & Hhit & Hok).
  fold o in Hcalls, Hquery, Hhit, Hok.
  assert (Hcalls' : httpServerKeyInternalAPI.ft_calls o =
            [httpServerKeyInternalAPI.QueryPublicKeysCall Background
               {[Scenario.K2 := 50%N]} {[Scenario.K2 := Scenario.R200]} None])
    by reflexivity.
  rewrite Hcalls' in Hcalls. inversion Hcalls; subst request response err.
  split; [done|].
  destruct (Hok eq_refl) as (rs & -> & _ & -> & _).
  reflexivity.
Defined.

(** ** C7 *)

(** C7. The Key Ring's [StoreKeys] and [FetchKeys] and the facade's
    [StoreKeys] do not depend on the context the caller supplies: for any
    two caller contexts, a cancelled one included, results, writes and calls
    are identical, and every collaborator is called on the background
    context. *)
Theorem caller_context_is_ignored {W1 W2 : Type}
    (s : @KeyRing W1) (h : @httpServerKeyInternalAPI.httpClient W2)
    (ctx1 ctx2 : Context) (now : Timestamp)
    (results : Results) (requests : Requests) (cache : Results)
    (w : W1) (w' : W2) :
  StoreKeys s ctx1 results w = StoreKeys s ctx2 results w ∧
  FetchKeys s ctx1 now requests w = FetchKeys s ctx2 now requests w ∧
  httpServerKeyInternalAPI.StoreKeys h ctx1 results cache w' =
    httpServerKeyInternalAPI.StoreKeys h ctx2 results cache w' ∧
  httpServerKeyInternalAPI.FetchKeys h ctx1 now requests cache w' =
    httpServerKeyInternalAPI.FetchKeys h ctx2 now requests cache w' ∧
  StoreKeys s ctx1 results w =
    db_StoreKeys (KeyDatabase_ s) Background results w ∧
  Forall (λ ev, event_ctx ev = Background)
         (out_trace (FetchKeys s ctx1 now requests w)) ∧
  httpServerKeyInternalAPI.StoreKeys h ctx1 results cache w' =
    (let '(w1, err) := httpServerKeyInternalAPI.PostJSON_input h Background results w' in
     {| httpServerKeyInternalAPI.st_err := err;
        httpServerKeyInternalAPI.st_cache := results ∪ cache;
        httpServerKeyInternalAPI.st_world := w1;
        httpServerKeyInternalAPI.st_calls :=
          [httpServerKeyInternalAPI.InputPublicKeysCall Background results err] |}).
Proof.
  repeat split.
  - apply Forall_forall. intros ev Hin.
    destruct (FetchKeys_run s ctx1 now requests w)
      as (w1 & dbResults & err & o' & _ & Heq & Hrun).
    rewrite Heq in Hin. simpl in Hin.
    apply elem_of_cons in Hin as [->|Hin]; [done|].
    eapply run_ctx; eauto.
  - unfold httpServerKeyInternalAPI.StoreKeys.
    rewrite fillRequest_eq, (right_id_L ∅ (∪)).
    unfold httpServerKeyInternalAPI.InputPublicKeys.
    by destruct (httpServerKeyInternalAPI.PostJSON_input h Background results w').
Qed.

(** ** C8 *)

Lemma waterfall_nothing_outstanding {World : Type} (db : @KeyDatabase World)
    fetchers idx (results : Results) w :
  waterfall db fetchers idx ∅ results w =
    {| out_results := Some results; out_err := None; out_requests := ∅;
       out_world := w; out_trace := [] |}.
Proof. destruct fetchers; simpl; by rewrite ?map_size_empty. Qed.

Lemma usable_hits_all now (results : Results) :
  (∀ req res, results !! req = Some res → (now ≤ ValidUntilTS res)%N) →
  usable_hits now results = results.
Proof.
  intros Hvalid. apply map_eq; intros k. rewrite usable_hits_lookup.
  destruct (results !! k) as [res|] eqn:E; [|done].
  assert (Hs : stale now res = false).
  { apply stale_false_usable. right. specialize (Hvalid k res E). lia. }
  by rewrite Hs.
Qed.

(** C8. Over the Store of the spec (an upsert store that returns what it
    holds): for every batch of results, every earlier content of the Store
    and every list of Fetchers, [StoreKeys] followed by [FetchKeys] for the
    same identifiers, at a time not past any [ValidUntilTS] of the batch,
    returns exactly the stored batch with no error, whatever the valid-at
    timestamps of the request; no Fetcher is called. *)
Theorem StoreKeys_FetchKeys_round_trip
    (fetchers : list (@KeyFetcher Results)) (ctx ctx' : Context)
    (now : Timestamp) (results : Results) (requests : Requests)
    (store : Results) :
  dom requests = dom results →
  (∀ req res, results !! req = Some res → (now ≤ ValidUntilTS res)%N) →
  let s := {| KeyFetchers := fetchers; KeyDatabase_ := Scenario.MemStore |} in
  (StoreKeys s ctx results store).2 = None ∧
  let o := FetchKeys s ctx' now requests (StoreKeys s ctx results store).1 in
  out_results o = Some results ∧ out_err o = None ∧
  out_requests o = ∅ ∧ call_indices (out_trace o) = [].
Proof.
  intros Hdom Hvalid s. split; [done|].
  unfold FetchKeys, StoreKeys. simpl.
  assert (Hread : requested requests (results ∪ store) = results).
  { apply map_eq; intros k. rewrite requested_lookup.
    destruct (requests !! k) as [ts|] eqn:E.
    - assert (Hk : k ∈ dom results) by (rewrite <- Hdom; apply elem_of_dom; eauto).
      apply elem_of_dom in Hk as [res Hres].
      rewrite Hres. by apply lookup_union_Some_l.
    - apply not_elem_of_dom in E. rewrite Hdom in E.
      by apply not_elem_of_dom in E. }
  rewrite Hread, consultStore_eq, (usable_hits_all _ _ Hvalid), (right_id_L ∅ (∪)).
  assert (Hnone : outstanding requests (dom results) = ∅).
  { apply outstanding_none_left. by rewrite Hdom. }
  rewrite Hnone, waterfall_nothing_outstanding. done.
Qed.

Lemma StoreKeys_FetchKeys_round_trip_witness :
  let s := {| KeyFetchers := [Scenario.Down]; KeyDatabase_ := Scenario.MemStore |} in
  let results : Results := {[Scenario.K1 := Scenario.R100; Scenario.K2 := Scenario.R200]} in
  let requests : Requests := {[Scenario.K1 := 90%N; Scenario.K2 := 100%N]} in
  let store : Results := {[Scenario.K1 := Scenario.R100x]} in
  out_results (FetchKeys s Background 100%N requests
                 (StoreKeys s Scenario.cancelled results store).1) = Some results.
Proof.
  intros s results requests store.
  apply (StoreKeys_FetchKeys_round_trip [Scenario.Down] Scenario.cancelled Background
           100%N results requests store).
  - reflexivity.
  - intros req res Hres. unfold results in Hres.
    apply lookup_insert_Some in Hres as [[_ <-]|[_ Hres]]; [by vm_compute|].
    apply lookup_singleton_Some in Hres as [_ <-]. by vm_compute.
Defined.

(** ** C9 *)

(** C9. For every pair of reference lists, [truncateAuthAndPrevEvents]
    returns at most 10 authorization references and at most 20
    preceding-event references, each being the prefix of its input in the
    original order; a list at or under its cap comes back unchanged. *)
Theorem truncateAuthAndPrevEvents_prefix (auth prev : list EventReference) :
  let '(truncAuth, truncPrev) := truncateAuthAndPrevEvents auth prev in
  truncAuth = take 10 auth ∧ truncPrev = take 20 prev ∧
  length truncAuth = 10 `min` length auth ∧
  length truncPrev = 20 `min` length prev ∧
  (length auth ≤ 10 → truncAuth = auth) ∧
  (length prev ≤ 20 → truncPrev = prev).
Proof.
  unfold truncateAuthAndPrevEvents.
  assert (Ha : (if 10 <? length auth then take 10 auth else auth) = take 10 auth).
  { destruct (10 <? length auth) eqn:E; [done|].
    apply Nat.ltb_ge in E. by rewrite take_ge. }
  assert (Hp : (if 20 <? length prev then take 20 prev else prev) = take 20 prev).
  { destruct (20 <? length prev) eqn:E; [done|].
    apply Nat.ltb_ge in E. by rewrite take_ge. }
  rewrite Ha, Hp, !length_take.
  repeat split; try done; intros; by rewrite take_ge.
Qed.

Lemma truncateAuthAndPrevEvents_prefix_witness :
  (truncateAuthAndPrevEvents (Scenario.refs 3) (Scenario.refs 25)).1 = Scenario.refs 3 ∧
  (truncateAuthAndPrevEvents (Scenario.refs 3) (Scenario.refs 25)).2 = Scenario.refs 20.
Proof.
  pose proof (truncateAuthAndPrevEvents_prefix (Scenario.refs 3) (Scenario.refs 25)) as H.
  destruct (truncateAuthAndPrevEvents (Scenario.refs 3) (Scenario.refs 25))
    as [truncAuth truncPrev].
  destruct H as (_ & Hp & _ & _ & Ha & _).
  split.
  - apply Ha. simpl. lia.
  - rewrite Hp. reflexivity.
Defined.

(** ** C10 *)

(** C10. [FetchKeys] leaves the caller's [requests] map without the
    identifiers that the Store read or a Fetcher resolved: it then holds
    exactly the requested identifiers missing from the returned batch, and
    it is empty when there is no error. *)
Theorem FetchKeys_mutates_requests {World : Type} (s : @KeyRing World)
    (ctx : Context) (now : Timestamp) (requests : Requests) (w : World) :
  let o := FetchKeys s ctx now requests w in
  out_requests o = outstanding requests (answered now (out_trace o)) ∧
  (∀ k, out_requests o !! k =
          if decide (k ∈ answered now (out_trace o)) then None else requests !! k) ∧
  (∀ rs, out_results o = Some rs → out_requests o = outstanding requests (dom rs)) ∧
  (out_err o = None → out_requests o = ∅).
Proof.
  intros o. pose proof (FetchKeys_requests s ctx now requests w) as Hreq.
  fold o in Hreq.
  assert (Hdone : is_Some (out_results o) ∨ out_err o = None →
                  out_results o = Some (merged now ∅ (out_trace o)) ∧
                  out_err o = unresolved_error (out_requests o)).
  { intros Hsome. apply FetchKeys_completed. intros c r e Hin.
    destruct (FetchKeys_aborted s ctx now requests w c r e Hin) as [Hnone Herr].
    fold o in Hnone, Herr. rewrite Hnone, Herr in Hsome.
    destruct Hsome as [[? ?]|?]; done. }
  split; [done|]. split; [|split].
  - intros k. by rewrite Hreq, outstanding_lookup.
  - intros rs Hrs. destruct Hdone as [Hres _]; [left; by eauto|].
    rewrite Hrs in Hres. inversion Hres.
    by rewrite merged_dom, dom_empty_L, (left_id_L ∅ (∪)).
  - intros Hnone. destruct Hdone as [_ Herr]; [by right|].
    rewrite Hnone in Herr. unfold unresolved_error in Herr.
    by case_decide.
Qed.

Lemma FetchKeys_mutates_requests_witness :
  out_requests
    (FetchKeys {| KeyFetchers := [Scenario.Oracle {[Scenario.K2 := Scenario.R200]}];
                  KeyDatabase_ := Scenario.MemStore |}
               Background 50%N
               {[Scenario.K1 := 50%N; Scenario.K2 := 50%N]}
               {[Scenario.K1 := Scenario.R100]}) = ∅.
Proof.
  apply FetchKeys_mutates_requests. reflexivity.
Defined.

(** * Further properties of the Key Ring *)

Module KeyRingMore.
Section KeyRingMore.
Import ServerKeyAPI Trace Loops Waterfall KeyRingFacts.
Context {World : Type}.

Lemma merged_lookup_Some now (results : Results) (tr : list Event) k v :
  merged now results tr !! k = Some v →
  results !! k = Some v ∨ ∃ ev, ev ∈ tr ∧ contributed now ev !! k = Some v.
Proof.
  revert results. induction tr as [|ev tr IH]; intros results Hk; [by left|].
  unfold merged in *. simpl in Hk. apply IH in Hk as [Hk|(ev' & Hin & Hk)].
  - apply lookup_union_Some_raw in Hk as [Hk|[_ Hk]].
    + right. exists ev. split; [by left|done].
    + by left.
  - right. exists ev'. split; [by right|done].
Qed.

(** Every Store write of the loop is the write of what the call just before
    it, a Fetcher call without error, returned. *)
Lemma run_store_events (db : @KeyDatabase World) idx fetchers requests results
    w o n c r e :
  run db idx fetchers requests results w o →
  out_trace o !! n = Some (DbStoreKeys c r e) →
  ∃ m i rq, n = S m ∧
            out_trace o !! m = Some (FetcherFetchKeys i Background rq r None).
Proof.
  intros Hrun. revert n.
  induction Hrun as [idx fetchers requests results w _
                 |idx fetcher rest requests results w w1 ret' e' o _ _ _ IH
                 |idx fetcher rest requests results w w1 w2 ret' o _ _ _ _ IH
                 |idx fetcher rest requests results w w1 w2 ret' e' _ _ _];
    intros n Hn.
  - by rewrite finish_eq in Hn.
  - simpl in *. destruct n as [|n]; simpl in *; [done|].
    destruct (IH n Hn) as (m & i & rq & -> & Hm). by exists (S m), i, rq.
  - simpl in *. destruct n as [|[|n]]; simpl in *; [done| |].
    + inversion Hn; subst. by exists 0, idx, requests.
    + destruct (IH n Hn) as (m & i & rq & -> & Hm). by exists (S (S m)), i, rq.
  - simpl in *. destruct n as [|[|n]]; simpl in *; [done| |done].
    inversion Hn; subst. by exists 0, idx, requests.
Qed.

End KeyRingMore.
End KeyRingMore.

Import ServerKeyAPI Trace Loops Waterfall KeyRingFacts KeyRingMore.

(** When the Store read leaves nothing outstanding, the loop over the
    Fetchers is not entered (or left at once), whatever the Fetchers are. *)
Lemma FetchKeys_store_suffices {World : Type} (s : @KeyRing World)
    (ctx : Context) (now : Timestamp) (requests : Requests) (w w1 : World)
    (dbResults : Results) :
  db_FetchKeys (KeyDatabase_ s) Background requests w = (w1, (dbResults, None)) →
  outstanding requests (dom (usable_hits now dbResults)) = ∅ →
  FetchKeys s ctx now requests w =
    {| out_results := Some (usable_hits now dbResults); out_err := None;
       out_requests := ∅; out_world := w1;
       out_trace := [DbFetchKeys Background requests dbResults None] |}.
Proof.
  intros Hread Hnone. unfold FetchKeys. rewrite Hread.
  rewrite consultStore_eq, (right_id_L ∅ (∪)), Hnone.
  destruct (KeyFetchers s); simpl; by rewrite ?map_size_empty.
Qed.

(** X1. With nothing outstanding after the Store read (every requested
    identifier has a usable Store entry, in particular when the request is
    empty), [FetchKeys] calls no Fetcher and writes nothing: it returns the
    usable part of what the Store returned, with no error. *)
Theorem FetchKeys_served_from_store {World : Type} (s : @KeyRing World)
    (ctx : Context) (now : Timestamp) (requests : Requests) (w w1 : World)
    (dbResults : Results) :
  db_FetchKeys (KeyDatabase_ s) Background requests w = (w1, (dbResults, None)) →
  (∀ req ts, requests !! req = Some ts →
             ∃ res, dbResults !! req = Some res ∧ usable now res) →
  FetchKeys s ctx now requests w =
    {| out_results := Some (usable_hits now dbResults); out_err := None;
       out_requests := ∅; out_world := w1;
       out_trace := [DbFetchKeys Background requests dbResults None] |}.
Proof.
  intros Hread Hall. apply FetchKeys_store_suffices; [exact Hread|].
  apply outstanding_none_left. intros k Hk.
  apply elem_of_dom in Hk as [ts Hts].
  destruct (Hall k ts Hts) as (res & Hres & Huse).
  apply stale_false_usable in Huse.
  apply elem_of_dom. exists res.
  by rewrite usable_hits_lookup, Hres, Huse.
Qed.

Lemma FetchKeys_served_from_store_witness :
  out_trace
    (FetchKeys {| KeyFetchers := [Scenario.Down]; KeyDatabase_ := Scenario.MemStore |}
               Scenario.cancelled 150%N {[Scenario.K1 := 150%N]}
               {[Scenario.K1 := Scenario.R100x; Scenario.K2 := Scenario.R100]})
  = [DbFetchKeys Background {[Scenario.K1 := 150%N]}
                 {[Scenario.K1 := Scenario.R100x]} None].
Proof.
  rewrite (FetchKeys_served_from_store _ _ _ _ _
             {[Scenario.K1 := Scenario.R100x; Scenario.K2 := Scenario.R100]}
             {[Scenario.K1 := Scenario.R100x]}).
  - reflexivity.
  - reflexivity.
  - intros req ts Hreq. apply lookup_singleton_Some in Hreq as [<- _].
    exists Scenario.R100x. split; [reflexivity|]. left. vm_compute. lia.
Defined.

(** X2. An empty request batch never reaches a Fetcher and never fails,
    whatever the Store read answers (an error included). *)
Theorem FetchKeys_empty_batch {World : Type} (s : @KeyRing World)
    (ctx : Context) (now : Timestamp) (w : World) :
  let o := FetchKeys s ctx now ∅ w in
  call_indices (out_trace o) = [] ∧ write_refused (out_trace o) = false ∧
  length (out_trace o) = 1 ∧ out_err o = None ∧ out_requests o = ∅ ∧
  out_world o = (db_FetchKeys (KeyDatabase_ s) Background ∅ w).1 ∧
  ∃ rs, out_results o = Some rs.
Proof.
  intros o. subst o. unfold FetchKeys.
  destruct (db_FetchKeys (KeyDatabase_ s) Background ∅ w)
    as [w1 [dbResults [e|]]]; simpl.
  - rewrite waterfall_nothing_outstanding. simpl. by eauto 10.
  - rewrite consultStore_eq.
    assert (Hnone : outstanding (∅ : Requests) (dom (usable_hits now dbResults)) = ∅).
    { apply outstanding_none_left. by rewrite dom_empty_L. }
    rewrite Hnone, waterfall_nothing_outstanding. simpl. by eauto 10.
Qed.

(** X3. [FetchKeys] invents nothing: every result of the returned batch was
    returned for that identifier either by the Store read, without error and
    passing the validity test, or by a Fetcher call without error. *)
Theorem FetchKeys_results_have_a_source {World : Type} (s : @KeyRing World)
    (ctx : Context) (now : Timestamp) (requests : Requests) (w : World)
    (rs : Results) req res :
  out_results (FetchKeys s ctx now requests w) = Some rs →
  rs !! req = Some res →
  (∃ c rq ret, DbFetchKeys c rq ret None ∈ out_trace (FetchKeys s ctx now requests w) ∧
               ret !! req = Some res ∧ usable now res) ∨
  (∃ i c rq ret,
     FetcherFetchKeys i c rq ret None ∈ out_trace (FetchKeys s ctx now requests w) ∧
     ret !! req = Some res).
Proof.
  intros Hrs Hreq.
  destruct (FetchKeys_verdict s ctx now requests w)
    as [(_ & Hres & _)|(_ & Hres & _)]; [|congruence].
  rewrite Hrs in Hres. inversion Hres; subst rs. clear Hres.
  apply merged_lookup_Some in Hreq as [Hreq|(ev & Hin & Hev)];
    [by rewrite lookup_empty in Hreq|].
  destruct ev as [c rq ret [e|]|i c rq ret [e|]|c r e]; simpl in Hev;
    try by rewrite lookup_empty in Hev.
  - left. exists c, rq, ret. split; [done|].
    rewrite usable_hits_lookup in Hev.
    destruct (ret !! req) as [res'|] eqn:Hret; [|done].
    destruct (stale now res') eqn:Hstale; [done|].
    inversion Hev; subst res'. split; [done|]. by apply stale_false_usable.
  - right. by exists i, c, rq, ret.
Qed.

Lemma FetchKeys_results_have_a_source_witness :
  let o := FetchKeys {| KeyFetchers := [Scenario.Oracle {[Scenario.K2 := Scenario.R200]}];
                        KeyDatabase_ := Scenario.MemStore |}
                     Background 50%N
                     {[Scenario.K1 := 50%N; Scenario.K2 := 50%N]}
                     {[Scenario.K1 := Scenario.R100]} in
  (∃ c rq ret, DbFetchKeys c rq ret None ∈ out_trace o ∧
               ret !! Scenario.K2 = Some Scenario.R200 ∧ usable 50%N Scenario.R200) ∨
  (∃ i c rq ret, FetcherFetchKeys i c rq ret None ∈ out_trace o ∧
                 ret !! Scenario.K2 = Some Scenario.R200).
Proof.
  intros o.
  apply (FetchKeys_results_have_a_source _ _ _ _ _
           {[Scenario.K1 := Scenario.R100; Scenario.K2 := Scenario.R200]});
    reflexivity.
Defined.

(** X4. The unresolved-keys error counts the entries left in the caller's
    map: the count is positive and at most the size of the request, and the
    map left to the caller is a part of the map it passed in. *)
Theorem FetchKeys_error_count_bounds {World : Type} (s : @KeyRing World)
    (ctx : Context) (now : Timestamp) (requests : Requests) (w : World) :
  let o := FetchKeys s ctx now requests w in
  out_requests o ⊆ requests ∧
  ∀ n, out_err o = Some (ErrFetchFailed n) →
       n = size (out_requests o) ∧ 0 < n ≤ size requests.
Proof.
  intros o.
  assert (Hsub : out_requests o ⊆ requests).
  { unfold o. rewrite FetchKeys_requests. apply map_filter_subseteq. }
  split; [done|]. intros n Herr.
  destruct (FetchKeys_verdict s ctx now requests w)
    as [(_ & _ & Herr')|(_ & _ & e & Herr')]; fold o in Herr'; [|congruence].
  rewrite Herr' in Herr. unfold unresolved_error in Herr.
  case_decide as Hempty; [done|]. inversion Herr. split; [done|].
  split.
  - assert (size (out_requests o) ≠ 0) by by rewrite size_zero_empty.
    lia.
  - by apply map_subseteq_size.
Qed.

Lemma FetchKeys_error_count_bounds_witness :
  1 = size (out_requests
              (FetchKeys {| KeyFetchers := [Scenario.Down];
                            KeyDatabase_ := Scenario.MemStore |}
                         Background 50%N {[Scenario.K1 := 50%N]} ∅)) ∧
  0 < 1 ≤ size ({[Scenario.K1 := 50%N]} : Requests).
Proof.
  apply (FetchKeys_error_count_bounds
           {| KeyFetchers := [Scenario.Down]; KeyDatabase_ := Scenario.MemStore |}
           Background 50%N {[Scenario.K1 := 50%N]} ∅).
  reflexivity.
Defined.

(** X5. [FetchKeys] writes to the Store only what a Fetcher has just
    returned without error: every Store write follows directly upon such a
    Fetcher call and carries exactly its batch. *)
Theorem FetchKeys_writes_only_fetched {World : Type} (s : @KeyRing World)
    (ctx : Context) (now : Timestamp) (requests : Requests) (w : World)
    n c r e :
  out_trace (FetchKeys s ctx now requests w) !! n = Some (DbStoreKeys c r e) →
  ∃ m i rq,
    n = S m ∧
    out_trace (FetchKeys s ctx now requests w) !! m =
      Some (FetcherFetchKeys i Background rq r None).
Proof.
  destruct (FetchKeys_run s ctx now requests w)
    as (w1 & dbResults & err & o' & _ & -> & Hrun).
  simpl. intros Hn. destruct n as [|n]; [done|]. simpl in Hn.
  destruct (run_store_events _ _ _ _ _ _ _ _ _ _ _ Hrun Hn)
    as (m & i & rq & -> & Hm).
  by exists (S m), i, rq.
Qed.

Lemma FetchKeys_writes_only_fetched_witness :
  ∃ m i rq,
    2 = S m ∧
    out_trace (FetchKeys {| KeyFetchers := [Scenario.Oracle {[Scenario.K1 := Scenario.R200]}];
                            KeyDatabase_ := Scenario.MemStore |}
                         Background 50%N {[Scenario.K1 := 50%N]} ∅) !! m =
      Some (FetcherFetchKeys i Background rq {[Scenario.K1 := Scenario.R200]} None).
Proof.
  apply (FetchKeys_writes_only_fetched _ _ _ _ _ 2 Background _ None).
  reflexivity.
Defined.

(** X6. With no Fetcher configured [FetchKeys] is the Store read alone: it
    returns the usable part of what the read gave, never writes, and reports
    as unresolved every requested identifier the read left unanswered. *)
Theorem FetchKeys_without_fetchers {World : Type} (s : @KeyRing World)
    (ctx : Context) (now : Timestamp) (requests : Requests) (w : World) :
  KeyFetchers s = [] →
  let answer := db_FetchKeys (KeyDatabase_ s) Background requests w in
  let read := DbFetchKeys Background requests answer.2.1 answer.2.2 in
  let left := outstanding requests (dom (contributed now read)) in
  FetchKeys s ctx now requests w =
    {| out_results := Some (contributed now read);
       out_err := unresolved_error left;
       out_requests := left; out_world := answer.1; out_trace := [read] |}.
Proof.
  intros Hnone. unfold FetchKeys. rewrite Hnone.
  destruct (db_FetchKeys (KeyDatabase_ s) Background requests w)
    as [w1 [dbResults [e|]]] eqn:Hread; simpl.
  - by rewrite finish_eq, dom_empty_L, outstanding_empty.
  - by rewrite consultStore_eq, finish_eq, (right_id_L ∅ (∪)).
Qed.

Lemma FetchKeys_without_fetchers_witness :
  out_results (FetchKeys {| KeyFetchers := []; KeyDatabase_ := Scenario.MemStore |}
                         Background 150%N
                         {[Scenario.K1 := 150%N; Scenario.K2 := 150%N]}
                         {[Scenario.K1 := Scenario.R100]}) = Some ∅.
Proof.
  rewrite (FetchKeys_without_fetchers
             {| KeyFetchers := []; KeyDatabase_ := Scenario.MemStore |}
             Background 150%N
             {[Scenario.K1 := 150%N; Scenario.K2 := 150%N]}
             {[Scenario.K1 := Scenario.R100]} eq_refl).
  reflexivity.
Defined.

(** ** The Key Ring over the Store of the spec *)

(** Over the upsert Store, with Fetchers that leave the Store alone, the
    loop keeps every result it has collected in the Store. *)
Lemma run_MemStore_retains idx (fetchers : list (@KeyFetcher Results))
    (requests : Requests) (results : Results) (w : Results) o :
  Forall (λ f, ∀ c rq w0, (kf_FetchKeys f c rq w0).1 = w0) fetchers →
  run Scenario.MemStore idx fetchers requests results w o →
  results ⊆ w →
  ∀ rs, out_results o = Some rs → rs ⊆ out_world o.
Proof.
  intros Hinert Hrun. revert Hinert.
  induction Hrun as [idx fetchers requests results w _
                 |idx fetcher rest requests results w w1 ret e o _ Hf _ IH
                 |idx fetcher rest requests results w w1 w2 ret o _ Hf Hs _ IH
                 |idx fetcher rest requests results w w1 w2 ret e _ _ _];
    intros Hinert Hsub rs Hrs.
  - rewrite finish_eq in *. simpl in *. by inversion Hrs; subst.
  - simpl in *. apply Forall_cons in Hinert as [Hfetcher Hrest].
    pose proof (Hfetcher Background requests w) as Hw. rewrite Hf in Hw.
    simpl in Hw. subst w1. by apply IH.
  - simpl in *. apply Forall_cons in Hinert as [Hfetcher Hrest].
    pose proof (Hfetcher Background requests w) as Hw. rewrite Hf in Hw.
    simpl in Hw. subst w1. inversion Hs; subst w2.
    apply IH; [done| |done]. by apply map_union_mono_l.
  - done.
Qed.

(** The same for a whole call: the Store read only adds to what the Store
    holds. *)
Lemma FetchKeys_MemStore_retains (fetchers : list (@KeyFetcher Results))
    (ctx : Context) (now : Timestamp) (requests : Requests) (store : Results)
    (rs : Results) :
  Forall (λ f, ∀ c rq w0, (kf_FetchKeys f c rq w0).1 = w0) fetchers →
  out_results (FetchKeys {| KeyFetchers := fetchers;
                            KeyDatabase_ := Scenario.MemStore |}
                         ctx now requests store) = Some rs →
  rs ⊆ out_world (FetchKeys {| KeyFetchers := fetchers;
                               KeyDatabase_ := Scenario.MemStore |}
                            ctx now requests store).
Proof.
  intros Hinert Hrs.
  destruct (FetchKeys_run {| KeyFetchers := fetchers;
                             KeyDatabase_ := Scenario.MemStore |}
                          ctx now requests store)
    as (w1 & dbResults & err & o' & Hread & Heq & Hrun).
  rewrite Heq in *. simpl in Hrs |- *.
  simpl in Hread. injection Hread as <- <- <-.
  eapply run_MemStore_retains; [exact Hinert|exact Hrun| |exact Hrs].
  simpl. etrans; [apply map_filter_subseteq|]. apply map_filter_subseteq.
Qed.

(** X7. Over the upsert Store of the spec, with Fetchers that do not touch
    the Store themselves, every result [FetchKeys] returns is held by the
    Store when the call ends. *)
Theorem FetchKeys_results_are_stored (fetchers : list (@KeyFetcher Results))
    (ctx : Context) (now : Timestamp) (requests : Requests) (store : Results)
    (rs : Results) :
  Forall (λ f, ∀ c rq w0, (kf_FetchKeys f c rq w0).1 = w0) fetchers →
  let s := {| KeyFetchers := fetchers; KeyDatabase_ := Scenario.MemStore |} in
  out_results (FetchKeys s ctx now requests store) = Some rs →
  rs ⊆ out_world (FetchKeys s ctx now requests store).
Proof.
  intros Hinert s Hrs. by apply FetchKeys_MemStore_retains.
Qed.

Lemma FetchKeys_results_are_stored_witness :
  ({[Scenario.K1 := Scenario.R200]} : Results) ⊆
  out_world (FetchKeys {| KeyFetchers := [Scenario.Oracle {[Scenario.K1 := Scenario.R200]}];
                          KeyDatabase_ := Scenario.MemStore |}
                       Background 150%N {[Scenario.K1 := 150%N]}
                       {[Scenario.K1 := Scenario.R100; Scenario.K2 := Scenario.R100]}).
Proof.
  apply (FetchKeys_results_are_stored
           [Scenario.Oracle {[Scenario.K1 := Scenario.R200]}]
           Background 150%N {[Scenario.K1 := 150%N]}
           {[Scenario.K1 := Scenario.R100; Scenario.K2 := Scenario.R100]}).
  - repeat constructor.
  - reflexivity.
Defined.

(** X8. Keys fetched once are served from the Store the next time: over the
    upsert Store, when a first [FetchKeys] has resolved the whole request, a
    second one for the same request at a time at which those results still
    pass the validity test returns them without calling any Fetcher. *)
Theorem FetchKeys_twice_served_from_store (fetchers : list (@KeyFetcher Results))
    (ctx ctx' : Context) (now now' : Timestamp) (requests : Requests)
    (store : Results) (rs : Results) :
  Forall (λ f, ∀ c rq w0, (kf_FetchKeys f c rq w0).1 = w0) fetchers →
  let s := {| KeyFetchers := fetchers; KeyDatabase_ := Scenario.MemStore |} in
  let first := FetchKeys s ctx now requests store in
  out_results first = Some rs →
  out_err first = None →
  (∀ req ts res, requests !! req = Some ts → rs !! req = Some res → usable now' res) →
  let second := FetchKeys s ctx' now' requests (out_world first) in
  out_results second = Some (requested requests rs) ∧
  out_err second = None ∧
  call_indices (out_trace second) = [] ∧
  out_world second = out_world first.
Proof.
  intros Hinert s first Hrs Herr Hvalid second.
  pose proof (FetchKeys_MemStore_retains fetchers ctx now requests store rs
                Hinert Hrs) as Hstored.
  fold s in Hstored. fold first in Hstored.
  assert (Hcover : dom requests ⊆ dom rs).
  { pose proof (FetchKeys_requests s ctx now requests store) as Hreq.
    destruct (FetchKeys_verdict s ctx now requests store)
      as [(_ & Hres & Herr')|(_ & Hres & _)]; fold first in Hres; [|congruence].
    fold first in Herr', Hreq. rewrite Herr in Herr'.
    unfold unresolved_error in Herr'. case_decide as Hempty; [|done].
    rewrite Hreq in Hempty. apply outstanding_none_left in Hempty.
    rewrite Hrs in Hres. inversion Hres as [Hm].
    by rewrite merged_dom, dom_empty_L, (left_id_L ∅ (∪)). }
  assert (Hread : requested requests (out_world first) = requested requests rs).
  { apply map_eq; intros k. rewrite !requested_lookup.
    destruct (requests !! k) as [ts|] eqn:Hk; [|done].
    assert (Hin : k ∈ dom rs) by (apply Hcover, elem_of_dom; eauto).
    apply elem_of_dom in Hin as [res Hres]. rewrite Hres.
    by eapply lookup_weaken. }
  unfold second.
  rewrite (FetchKeys_store_suffices s ctx' now' requests (out_world first)
             (out_world first) (requested requests rs)).
  - simpl. split; [|done]. f_equal.
    apply map_eq; intros k. rewrite usable_hits_lookup, requested_lookup.
    destruct (requests !! k) as [ts|] eqn:Hk; [|done].
    destruct (rs !! k) as [res|] eqn:Hres; [|done].
    assert (Hs : stale now' res = false).
    { apply stale_false_usable. by eapply Hvalid. }
    by rewrite Hs.
  - simpl. by rewrite Hread.
  - apply outstanding_none_left. intros req Hreq.
    apply elem_of_dom in Hreq as [ts Hreq].
    assert (Hin : req ∈ dom rs) by (apply Hcover, elem_of_dom; eauto).
    apply elem_of_dom in Hin as [res Hres].
    assert (Hs : stale now' res = false).
    { apply stale_false_usable. by eapply Hvalid. }
    apply elem_of_dom. exists res.
    by rewrite usable_hits_lookup, requested_lookup, Hreq, Hres, Hs.
Qed.

Lemma FetchKeys_twice_served_from_store_witness :
  let s := {| KeyFetchers := [Scenario.Oracle {[Scenario.K1 := Scenario.R200]}];
              KeyDatabase_ := Scenario.MemStore |} in
  let requests : Requests := {[Scenario.K1 := 150%N]} in
  let first := FetchKeys s Background 150%N requests {[Scenario.K1 := Scenario.R100]} in
  call_indices (out_trace (FetchKeys s Background 180%N requests (out_world first))) = [].
Proof.
  intros s requests first.
  apply (FetchKeys_twice_served_from_store
           [Scenario.Oracle {[Scenario.K1 := Scenario.R200]}]
           Background Background 150%N 180%N requests
           {[Scenario.K1 := Scenario.R100]} {[Scenario.K1 := Scenario.R200]}).
  - repeat constructor.
  - reflexivity.
  - reflexivity.
  - intros req ts res _ Hres. apply lookup_singleton_Some in Hres as [_ <-].
    right. vm_compute. discriminate.
Defined.

(** * Further properties of the client-side facade *)

(** The facade's [FetchKeys] in closed form. *)
Lemma facade_FetchKeys_eq {World : Type}
    (h : @httpServerKeyInternalAPI.httpClient World) ctx now
    (requests : Requests) (cache : Results) w :
  httpServerKeyInternalAPI.FetchKeys h ctx now requests cache w =
    let request := outstanding requests (dom cache) in
    let answer := httpServerKeyInternalAPI.QueryPublicKeys h Background request w in
    let call := httpServerKeyInternalAPI.QueryPublicKeysCall Background request
                  answer.2.1 answer.2.2 in
    match answer.2.2 with
    | Some e =>
      {| httpServerKeyInternalAPI.ft_results := None;
         httpServerKeyInternalAPI.ft_err := Some e;
         httpServerKeyInternalAPI.ft_cache := cache;
         httpServerKeyInternalAPI.ft_world := answer.1;
         httpServerKeyInternalAPI.ft_calls := [call] |}
    | None =>
      {| httpServerKeyInternalAPI.ft_results :=
           Some (answer.2.1 ∪ requested requests (usable_hits now cache));
         httpServerKeyInternalAPI.ft_err := None;
         httpServerKeyInternalAPI.ft_cache := answer.2.1 ∪ cache;
         httpServerKeyInternalAPI.ft_world := answer.1;
         httpServerKeyInternalAPI.ft_calls := [call] |}
    end.
Proof.
  unfold httpServerKeyInternalAPI.FetchKeys. rewrite consultCache_eq.
  destruct (httpServerKeyInternalAPI.QueryPublicKeys h Background
              (outstanding requests (dom cache)) w)
    as [w1 [response [e|]]]; simpl; [done|].
  by rewrite absorbResponse_eq.
Qed.

(** X9. When the remote call fails the facade returns the remote error
    unchanged and no batch at all, not even the results it had found usable
    in its cache, and it leaves the cache as it was. *)
Theorem facade_FetchKeys_remote_failure {World : Type}
    (h : @httpServerKeyInternalAPI.httpClient World)
    (ctx : Context) (now : Timestamp) (requests : Requests) (cache : Results)
    (w w1 : World) (response : Results) (e : error) :
  httpServerKeyInternalAPI.QueryPublicKeys h Background
    (outstanding requests (dom cache)) w = (w1, (response, Some e)) →
  let o := httpServerKeyInternalAPI.FetchKeys h ctx now requests cache w in
  httpServerKeyInternalAPI.ft_results o = None ∧
  httpServerKeyInternalAPI.ft_err o = Some e ∧
  httpServerKeyInternalAPI.ft_cache o = cache ∧
  httpServerKeyInternalAPI.ft_world o = w1.
Proof.
  intros Hcall o. subst o. rewrite facade_FetchKeys_eq. simpl.
  by rewrite Hcall.
Qed.

(** X10. What the facade returns comes from its cache or from the remote
    response: a result in the returned batch is either the response's
    result for that identifier, or the cache's usable result for a requested
    identifier that the response does not carry. *)
Theorem facade_FetchKeys_results_have_a_source {World : Type}
    (h : @httpServerKeyInternalAPI.httpClient World)
    (ctx : Context) (now : Timestamp) (requests : Requests) (cache : Results)
    (w : World) (rs : Results) req res :
  let o := httpServerKeyInternalAPI.FetchKeys h ctx now requests cache w in
  httpServerKeyInternalAPI.ft_results o = Some rs →
  rs !! req = Some res →
  ∃ c request response,
    httpServerKeyInternalAPI.ft_calls o =
      [httpServerKeyInternalAPI.QueryPublicKeysCall c request response None] ∧
    (response !! req = Some res ∨
     (response !! req = None ∧ is_Some (requests !! req) ∧
      httpServerKeyInternalAPI.GetServerKey cache req = Some res ∧
      usable now res)).
Proof.
  intros o. subst o. rewrite facade_FetchKeys_eq. simpl.
  destruct (httpServerKeyInternalAPI.QueryPublicKeys h Background
              (outstanding requests (dom cache)) w)
    as [w1 [response [e|]]]; simpl; [done|].
  intros Hrs Hreq. inversion Hrs; subst rs. clear Hrs.
  eexists _, _, _. split; [done|].
  apply lookup_union_Some_raw in Hreq as [Hreq|[Hnone Hreq]]; [by left|].
  right. split; [done|].
  rewrite requested_lookup in Hreq.
  destruct (requests !! req) as [ts|]; [|done].
  rewrite usable_hits_lookup in Hreq.
  unfold httpServerKeyInternalAPI.GetServerKey.
  destruct (cache !! req) as [res'|]; [|done].
  destruct (stale now res') eqn:Hstale; [done|].
  inversion Hreq; subst res'. split; [by eauto|]. split; [done|].
  by apply stale_false_usable.
Qed.

Lemma facade_FetchKeys_results_have_a_source_witness :
  let o := httpServerKeyInternalAPI.FetchKeys
             (Scenario.Remote {[Scenario.K2 := Scenario.R200]}) Background 50%N
             {[Scenario.K1 := 50%N; Scenario.K2 := 50%N]}
             {[Scenario.K1 := Scenario.R100]} ∅ in
  ∃ c request response,
    httpServerKeyInternalAPI.ft_calls o =
      [httpServerKeyInternalAPI.QueryPublicKeysCall c request response None] ∧
    (response !! Scenario.K1 = Some Scenario.R100 ∨
     (response !! Scenario.K1 = None ∧
      is_Some (({[Scenario.K1 := 50%N; Scenario.K2 := 50%N]} : Requests) !! Scenario.K1) ∧
      httpServerKeyInternalAPI.GetServerKey {[Scenario.K1 := Scenario.R100]} Scenario.K1
        = Some Scenario.R100 ∧
      usable 50%N Scenario.R100)).
Proof.
  intros o.
  apply (facade_FetchKeys_results_have_a_source
           (Scenario.Remote {[Scenario.K2 := Scenario.R200]}) Background 50%N
           {[Scenario.K1 := 50%N; Scenario.K2 := 50%N]}
           {[Scenario.K1 := Scenario.R100]} ∅
           {[Scenario.K1 := Scenario.R100; Scenario.K2 := Scenario.R200]});
    reflexivity.
Defined.

Lemma facade_FetchKeys_remote_failure_witness :
  let h := {| httpServerKeyInternalAPI.PostJSON_input :=
                λ _ _ (w : Results), (w, Some (ErrCollaborator "unreachable"));
              httpServerKeyInternalAPI.PostJSON_query :=
                λ _ _ (w : Results), (w, (∅, Some (ErrCollaborator "unreachable"))) |} in
  httpServerKeyInternalAPI.ft_results
    (httpServerKeyInternalAPI.FetchKeys h Background 50%N
       {[Scenario.K1 := 50%N; Scenario.K2 := 50%N]}
       {[Scenario.K1 := Scenario.R100]} ∅) = None.
Proof.
  intros h.
  apply (facade_FetchKeys_remote_failure h Background 50%N
           {[Scenario.K1 := 50%N; Scenario.K2 := 50%N]}
           {[Scenario.K1 := Scenario.R100]} ∅ ∅ ∅ (ErrCollaborator "unreachable")).
  reflexivity.
Defined.



(** X12. The facade asks the remote side only once for an identifier: after
    a [FetchKeys] whose remote call returned without error, a later
    [FetchKeys] leaves out of its remote request every identifier that the
    earlier response carried or that was cached before. *)
Theorem facade_FetchKeys_twice {World : Type}
    (h : @httpServerKeyInternalAPI.httpClient World)
    (ctx ctx' : Context) (now now' : Timestamp) (requests requests' : Requests)
    (cache : Results) (w : World) c request response :
  let first := httpServerKeyInternalAPI.FetchKeys h ctx now requests cache w in
  httpServerKeyInternalAPI.ft_calls first =
    [httpServerKeyInternalAPI.QueryPublicKeysCall c request response None] →
  let second := httpServerKeyInternalAPI.FetchKeys h ctx' now' requests'
                  (httpServerKeyInternalAPI.ft_cache first)
                  (httpServerKeyInternalAPI.ft_world first) in
  ∃ response' err',
    httpServerKeyInternalAPI.ft_calls second =
      [httpServerKeyInternalAPI.QueryPublicKeysCall Background
         (outstanding requests' (dom response ∪ dom cache)) response' err'].
Proof.
  intros first Hcalls second.
  assert (Hcache : httpServerKeyInternalAPI.ft_cache first = response ∪ cache).
  { unfold first in *. rewrite facade_FetchKeys_eq in Hcalls |- *.
    cbv zeta in *.
    destruct (httpServerKeyInternalAPI.QueryPublicKeys h Background
                (outstanding requests (dom cache)) w)
      as [w1 [response1 [e|]]]; simpl in *; by inversion Hcalls. }
  unfold second. rewrite Hcache, facade_FetchKeys_eq. cbv zeta.
  rewrite dom_union_L.
  destruct (httpServerKeyInternalAPI.QueryPublicKeys h Background
              (outstanding requests' (dom response ∪ dom cache))
              (httpServerKeyInternalAPI.ft_world first))
    as [w2 [response2 [e|]]]; simpl; by eauto.
Qed.

Lemma facade_FetchKeys_twice_witness :
  let h := Scenario.Remote {[Scenario.K1 := Scenario.R200]} in
  let first := httpServerKeyInternalAPI.FetchKeys h Background 50%N
                 {[Scenario.K1 := 50%N]} ∅ ∅ in
  ∃ response' err',
    httpServerKeyInternalAPI.ft_calls
      (httpServerKeyInternalAPI.FetchKeys h Background 60%N
         {[Scenario.K1 := 60%N; Scenario.K2 := 60%N]}
         (httpServerKeyInternalAPI.ft_cache first)
         (httpServerKeyInternalAPI.ft_world first)) =
      [httpServerKeyInternalAPI.QueryPublicKeysCall Background
         (outstanding {[Scenario.K1 := 60%N; Scenario.K2 := 60%N]}
            (dom ({[Scenario.K1 := Scenario.R200]} : Results) ∪ dom (∅ : Results)))
         response' err'].
Proof.
  intros h first.
  apply (facade_FetchKeys_twice h Background Background 50%N 60%N
           {[Scenario.K1 := 50%N]} {[Scenario.K1 := 60%N; Scenario.K2 := 60%N]}
           ∅ ∅ Background {[Scenario.K1 := 50%N]} {[Scenario.K1 := Scenario.R200]}).
  reflexivity.
Defined.

(** X13. A stale cache entry stays: when the remote side answers only what
    it is asked, a [FetchKeys] at any later time leaves a cached result that
    has no expiry marker and is past its [ValidUntilTS] in the cache as it
    is, still stale, and returns nothing for its identifier. *)
Theorem facade_stale_entry_is_kept {World : Type}
    (h : @httpServerKeyInternalAPI.httpClient World)
    (ctx : Context) (now now' : Timestamp) (requests : Requests)
    (cache : Results) (w : World) req res :
  (∀ c rq w0, dom (httpServerKeyInternalAPI.QueryPublicKeys h c rq w0).2.1 ⊆ dom rq) →
  httpServerKeyInternalAPI.GetServerKey cache req = Some res →
  ¬ usable now res →
  (now ≤ now')%N →
  let o := httpServerKeyInternalAPI.FetchKeys h ctx now' requests cache w in
  httpServerKeyInternalAPI.GetServerKey (httpServerKeyInternalAPI.ft_cache o) req
    = Some res ∧
  ¬ usable now' res ∧
  ∀ rs, httpServerKeyInternalAPI.ft_results o = Some rs → rs !! req = None.
Proof.
  intros Hremote Hres Hstale Hlater o. subst o.
  unfold httpServerKeyInternalAPI.GetServerKey in *.
  assert (Hstale' : ¬ usable now' res).
  { unfold usable in *. intros [Hexp|Hvalid]; apply Hstale; [by left|].
    right. lia. }
  rewrite facade_FetchKeys_eq. simpl.
  pose proof (Hremote Background (outstanding requests (dom cache)) w) as Hdom.
  destruct (httpServerKeyInternalAPI.QueryPublicKeys h Background
              (outstanding requests (dom cache)) w)
    as [w1 [response [e|]]]; simpl in *; [done|].
  assert (Hresp : response !! req = None).
  { apply not_elem_of_dom. intros Hin. apply Hdom in Hin.
    apply elem_of_dom in Hin as [ts Hts].
    rewrite outstanding_lookup, decide_True in Hts; [done|].
    apply elem_of_dom. eauto. }
  split; [by rewrite lookup_union_r|]. split; [done|].
  intros rs Hrs. inversion Hrs; subst rs.
  rewrite lookup_union_r by done.
  rewrite requested_lookup, usable_hits_lookup, Hres.
  apply stale_true_not_usable in Hstale'. rewrite Hstale'.
  by destruct (requests !! req).
Qed.

Lemma facade_stale_entry_is_kept_witness :
  httpServerKeyInternalAPI.GetServerKey
    (httpServerKeyInternalAPI.ft_cache
       (httpServerKeyInternalAPI.FetchKeys
          (Scenario.Remote {[Scenario.K1 := Scenario.R200]}) Background 170%N
          {[Scenario.K1 := 170%N]} {[Scenario.K1 := Scenario.R100]} ∅))
    Scenario.K1 = Some Scenario.R100.
Proof.
  apply (facade_stale_entry_is_kept
           (Scenario.Remote {[Scenario.K1 := Scenario.R200]}) Background
           150%N 170%N {[Scenario.K1 := 170%N]} {[Scenario.K1 := Scenario.R100]}
           ∅ Scenario.K1 Scenario.R100).
  - intros c rq w0 k Hk. simpl in Hk.
    apply elem_of_dom in Hk as [v Hv]. rewrite requested_lookup in Hv.
    apply elem_of_dom. destruct (rq !! k); [by eauto|done].
  - reflexivity.
  - intros [Hexp|Hvalid]; [by apply Hexp|]. apply Hvalid. by vm_compute.
  - by vm_compute.
Defined.

(** * Properties of the event builder *)

Lemma truncateAuthAndPrevEvents_eq (auth prev : list EventReference) :
  truncateAuthAndPrevEvents auth prev = (take 10 auth, take 20 prev).
Proof.
  unfold truncateAuthAndPrevEvents. f_equal.
  - destruct (10 <? length auth) eqn:E; [done|].
    apply Nat.ltb_ge in E. by rewrite take_ge.
  - destruct (20 <? length prev) eqn:E; [done|].
    apply Nat.ltb_ge in E. by rewrite take_ge.
Qed.

Module BuilderFacts.
Section BuilderFacts.
Import events.
Context {World Event StateNeeded StateKeyTuple AuthEvents Fields Time PrivateKey : Type}.
Implicit Types
  (c : @Collaborators World Event StateNeeded StateKeyTuple AuthEvents Fields
         Time PrivateKey).

(** The loop over the state events fails only with a wrapped [AddEvent]
    error. *)
Lemma addStateEvents_error c authEvents stateEvents authEvents' e :
  addStateEvents c authEvents stateEvents = (authEvents', Some e) →
  ∃ cause, e = Errorf "authEvents.AddEvent" cause.
Proof.
  revert authEvents. induction stateEvents as [|ev rest IH]; intros authEvents;
    simpl; [done|].
  destruct (AddEvent c authEvents ev) as [a [cause|]]; [|by apply IH].
  intros Heq. inversion Heq. by eauto.
Qed.

End BuilderFacts.
End BuilderFacts.

Ltac builder_cases c ctx builder queryRes w :=
  unfold events.AddPrevEventsToEvent;
  destruct (events.StateNeededForEventBuilder c builder)
    as [eventsNeeded [eNeeded|]] eqn:Hneeded; cbv beta iota zeta;
  [|destruct (length (events.Tuples c eventsNeeded) =? 0) eqn:Htuples;
    cbv beta iota zeta;
    [|destruct (events.QueryLatestEventsAndState c ctx
                  {| events.rq_RoomID := events.eb_RoomID builder;
                     events.rq_StateToFetch := events.Tuples c eventsNeeded |}
                  queryRes w)
        as [w1 [queryRes1 [eQuery|]]] eqn:Hquery; cbv beta iota zeta;
      [|destruct (events.rs_RoomExists queryRes1) eqn:Hexists;
        cbv beta iota zeta; cbn [negb];
        [destruct (events.RoomVersion_EventFormat c (events.rs_RoomVersion queryRes1))
           as [eventFormat [eFormat|]] eqn:Hformat; cbv beta iota zeta;
         [|destruct (events.addStateEvents c (events.NewAuthEvents c)
                       (events.rs_StateEvents queryRes1))
             as [authEvents [eAdd|]] eqn:Hadd; cbv beta iota zeta;
           [|destruct (events.AuthEventReferences c eventsNeeded authEvents)
               as [refs [eRefs|]] eqn:Hrefs; cbv beta iota zeta;
             [|rewrite truncateAuthAndPrevEvents_eq; cbv beta iota zeta]]]|]]]];
  cbn [events.fl_err events.fl_builder events.fl_queryRes events.fl_world].

Import events.

(** X14. When [AddPrevEventsToEvent] returns no error, the room exists, the
    builder's depth is the one the roomserver reported, and, by event
    format, its references are the first 10 authorization references and
    the first 20 latest events of the roomserver's answer (format 1), their
    event IDs in the same order (format 2), or what they were before (any
    other format). *)
Theorem AddPrevEventsToEvent_fills_builder
    {World Event StateNeeded StateKeyTuple AuthEvents Fields Time PrivateKey : Type}
    (c : @Collaborators World Event StateNeeded StateKeyTuple AuthEvents Fields
           Time PrivateKey)
    (ctx : Context) (builder : @EventBuilder Fields)
    (queryRes : @QueryLatestEventsAndStateResponse Event) (w : World) :
  let f := AddPrevEventsToEvent c ctx builder queryRes w in
  fl_err f = None →
  ∃ eventsNeeded authEvents refs eventFormat,
    StateNeededForEventBuilder c builder = (eventsNeeded, None) ∧
    addStateEvents c (NewAuthEvents c) (rs_StateEvents (fl_queryRes f))
      = (authEvents, None) ∧
    AuthEventReferences c eventsNeeded authEvents = (refs, None) ∧
    RoomVersion_EventFormat c (rs_RoomVersion (fl_queryRes f)) = (eventFormat, None) ∧
    rs_RoomExists (fl_queryRes f) = true ∧
    eb_Depth (fl_builder f) = rs_Depth (fl_queryRes f) ∧
    eb_RoomID (fl_builder f) = eb_RoomID builder ∧
    eb_fields (fl_builder f) = eb_fields builder ∧
    let latest := rs_LatestEvents (fl_queryRes f) in
    match eventFormat with
    | EventFormatV1 =>
      eb_AuthEvents (fl_builder f) = ByReference (take 10 refs) ∧
      eb_PrevEvents (fl_builder f) = ByReference (take 20 latest)
    | EventFormatV2 =>
      eb_AuthEvents (fl_builder f) = ByEventID (EventID <$> take 10 refs) ∧
      eb_PrevEvents (fl_builder f) = ByEventID (EventID <$> take 20 latest)
    | EventFormatOther =>
      eb_AuthEvents (fl_builder f) = eb_AuthEvents builder ∧
      eb_PrevEvents (fl_builder f) = eb_PrevEvents builder
    end.
Proof.
  intros f. subst f. builder_cases c ctx builder queryRes w; try done.
  intros _. exists eventsNeeded, authEvents, refs, eventFormat.
  repeat (split; [done|]). by destruct eventFormat.
Qed.

Lemma AddPrevEventsToEvent_fills_builder_witness :
  let c := BuilderScenario.toy ["m.room.create"] (BuilderScenario.room true "3" 25)
             (Scenario.refs 12) in
  let f := AddPrevEventsToEvent c Background BuilderScenario.blank emptyResponse 0 in
  eb_Depth (fl_builder f) = 7%Z ∧
  eb_AuthEvents (fl_builder f) = ByEventID (EventID <$> Scenario.refs 10) ∧
  eb_PrevEvents (fl_builder f) = ByEventID (EventID <$> Scenario.refs 20).
Proof.
  intros c f.
  destruct (AddPrevEventsToEvent_fills_builder c Background BuilderScenario.blank
              emptyResponse 0 eq_refl)
    as (eventsNeeded & authEvents & refs & eventFormat & _ & _ & Hrefs & Hformat
        & _ & Hdepth & _ & _ & Hfilled).
  fold f in Hformat, Hdepth, Hfilled.
  injection Hrefs as <-. injection Hformat as <-.
  destruct Hfilled as [Hauth Hprev].
  split; [exact Hdepth|]. split; [exact Hauth|exact Hprev].
Defined.

(** X15. Whatever the roomserver returns, a builder filled without error for
    event format 1 or 2 carries at most 10 authorization references and at
    most 20 preceding-event references. *)
Theorem AddPrevEventsToEvent_caps
    {World Event StateNeeded StateKeyTuple AuthEvents Fields Time PrivateKey : Type}
    (c : @Collaborators World Event StateNeeded StateKeyTuple AuthEvents Fields
           Time PrivateKey)
    (ctx : Context) (builder : @EventBuilder Fields)
    (queryRes : @QueryLatestEventsAndStateResponse Event) (w : World) :
  let f := AddPrevEventsToEvent c ctx builder queryRes w in
  fl_err f = None →
  (RoomVersion_EventFormat c (rs_RoomVersion (fl_queryRes f))).1 ≠ EventFormatOther →
  references_length (eb_AuthEvents (fl_builder f)) ≤ 10 ∧
  references_length (eb_PrevEvents (fl_builder f)) ≤ 20.
Proof.
  intros f. subst f. builder_cases c ctx builder queryRes w; try done.
  rewrite Hformat. intros _ Hformat'. simpl in Hformat'.
  destruct eventFormat; simpl; [| |done];
    rewrite ?length_fmap, !length_take; lia.
Qed.

Lemma AddPrevEventsToEvent_caps_witness :
  let c := BuilderScenario.toy ["m.room.create"] (BuilderScenario.room true "1" 25)
             (Scenario.refs 12) in
  let f := AddPrevEventsToEvent c Background BuilderScenario.blank emptyResponse 0 in
  references_length (eb_AuthEvents (fl_builder f)) ≤ 10 ∧
  references_length (eb_PrevEvents (fl_builder f)) ≤ 20.
Proof.
  intros c f.
  apply (AddPrevEventsToEvent_caps c Background BuilderScenario.blank emptyResponse 0).
  - reflexivity.
  - simpl. discriminate.
Defined.

(** X16. [AddPrevEventsToEvent] returns [ErrRoomNoExists] exactly when the
    builder needs some state, the roomserver answered without error, and
    its answer says that the room does not exist; every other failure is a
    different error value.  The builder is then left as it was. *)
Theorem AddPrevEventsToEvent_room_missing
    {World Event StateNeeded StateKeyTuple AuthEvents Fields Time PrivateKey : Type}
    (c : @Collaborators World Event StateNeeded StateKeyTuple AuthEvents Fields
           Time PrivateKey)
    (ctx : Context) (builder : @EventBuilder Fields)
    (queryRes : @QueryLatestEventsAndStateResponse Event) (w : World) :
  let f := AddPrevEventsToEvent c ctx builder queryRes w in
  (fl_err f = Some ErrRoomNoExists ↔
   ∃ eventsNeeded w1 queryRes1,
     StateNeededForEventBuilder c builder = (eventsNeeded, None) ∧
     Tuples c eventsNeeded ≠ [] ∧
     QueryLatestEventsAndState c ctx
       {| rq_RoomID := eb_RoomID builder;
          rq_StateToFetch := Tuples c eventsNeeded |} queryRes w
       = (w1, (queryRes1, None)) ∧
     rs_RoomExists queryRes1 = false) ∧
  (fl_err f = Some ErrRoomNoExists → fl_builder f = builder).
Proof.
  intros f. subst f.
  assert (Hforward :
    fl_err (AddPrevEventsToEvent c ctx builder queryRes w) = Some ErrRoomNoExists →
    fl_builder (AddPrevEventsToEvent c ctx builder queryRes w) = builder ∧
    ∃ eventsNeeded w1 queryRes1,
      StateNeededForEventBuilder c builder = (eventsNeeded, None) ∧
      Tuples c eventsNeeded ≠ [] ∧
      QueryLatestEventsAndState c ctx
        {| rq_RoomID := eb_RoomID builder;
           rq_StateToFetch := Tuples c eventsNeeded |} queryRes w
        = (w1, (queryRes1, None)) ∧
      rs_RoomExists queryRes1 = false).
  { builder_cases c ctx builder queryRes w; try discriminate.
    - intros Herr. destruct (BuilderFacts.addStateEvents_error _ _ _ _ _ Hadd) as [cause ->].
      discriminate.
    - intros _. split; [done|]. exists eventsNeeded, w1, queryRes1.
      apply Nat.eqb_neq in Htuples.
      repeat split; try done. intros Hnil. by rewrite Hnil in Htuples. }
  split; [split|]; [by intros H; apply Hforward in H as [_ H]| |
                    by intros H; apply Hforward in H as [H _]].
  intros (eventsNeeded & w1 & queryRes1 & Hneeded & Htuples & Hquery & Hexists).
  unfold AddPrevEventsToEvent. rewrite Hneeded.
  destruct (length (Tuples c eventsNeeded) =? 0) eqn:Hlen.
  { apply Nat.eqb_eq in Hlen. by destruct (Tuples c eventsNeeded). }
  rewrite Hquery, Hexists. done.
Qed.

Lemma AddPrevEventsToEvent_room_missing_witness :
  fl_err (AddPrevEventsToEvent
            (BuilderScenario.toy ["m.room.create"] (BuilderScenario.room false "1" 3)
               (Scenario.refs 2))
            Background BuilderScenario.blank emptyResponse 0)
    = Some ErrRoomNoExists.
Proof.
  apply AddPrevEventsToEvent_room_missing.
  exists ["m.room.create"], 1, (BuilderScenario.room false "1" 3).
  repeat split; done.
Defined.

(** X17. A builder that needs no state, or whose needed state cannot be
    determined, is rejected before the roomserver is asked: the roomserver's
    state, the response object and the builder are left as they were, and
    the error is not [ErrRoomNoExists]. *)
Theorem AddPrevEventsToEvent_rejects_before_query
    {World Event StateNeeded StateKeyTuple AuthEvents Fields Time PrivateKey : Type}
    (c : @Collaborators World Event StateNeeded StateKeyTuple AuthEvents Fields
           Time PrivateKey)
    (ctx : Context) (builder : @EventBuilder Fields)
    (queryRes : @QueryLatestEventsAndStateResponse Event) (w : World) :
  is_Some (StateNeededForEventBuilder c builder).2 ∨
  Tuples c (StateNeededForEventBuilder c builder).1 = [] →
  let f := AddPrevEventsToEvent c ctx builder queryRes w in
  fl_world f = w ∧ fl_queryRes f = queryRes ∧ fl_builder f = builder ∧
  is_Some (fl_err f) ∧ fl_err f ≠ Some ErrRoomNoExists.
Proof.
  intros Hreject f. subst f. unfold AddPrevEventsToEvent.
  destruct (StateNeededForEventBuilder c builder) as [eventsNeeded [e|]];
    simpl in *; [by eauto 10|].
  destruct Hreject as [[e He]|Hnil]; [done|].
  rewrite Hnil. simpl. by eauto 10.
Qed.

Lemma AddPrevEventsToEvent_rejects_before_query_witness :
  fl_world (AddPrevEventsToEvent
              (BuilderScenario.toy [] (BuilderScenario.room true "1" 3) (Scenario.refs 2))
              Background BuilderScenario.blank emptyResponse 0) = 0.
Proof.
  apply (AddPrevEventsToEvent_rejects_before_query
           (BuilderScenario.toy [] (BuilderScenario.room true "1" 3) (Scenario.refs 2))).
  by right.
Defined.

(** X18. A failing [AddPrevEventsToEvent] never touches the builder's
    references; the only field it may have changed is the depth, and that
    only when the failure came from collecting the authorization events
    (lines 102-112), after the depth had been set at line 98. *)
Theorem AddPrevEventsToEvent_failure_leaves_references
    {World Event StateNeeded StateKeyTuple AuthEvents Fields Time PrivateKey : Type}
    (c : @Collaborators World Event StateNeeded StateKeyTuple AuthEvents Fields
           Time PrivateKey)
    (ctx : Context) (builder : @EventBuilder Fields)
    (queryRes : @QueryLatestEventsAndStateResponse Event) (w : World) e :
  let f := AddPrevEventsToEvent c ctx builder queryRes w in
  fl_err f = Some e →
  eb_AuthEvents (fl_builder f) = eb_AuthEvents builder ∧
  eb_PrevEvents (fl_builder f) = eb_PrevEvents builder ∧
  eb_RoomID (fl_builder f) = eb_RoomID builder ∧
  eb_fields (fl_builder f) = eb_fields builder ∧
  (fl_builder f = builder ∨
   (eb_Depth (fl_builder f) = rs_Depth (fl_queryRes f) ∧
    ∃ cause, e = Errorf "authEvents.AddEvent" cause ∨
             e = Errorf "eventsNeeded.AuthEventReferences" cause)).
Proof.
  intros f. subst f. builder_cases c ctx builder queryRes w;
    intros Herr; try discriminate; try by eauto 10.
  - injection Herr as <-.
    destruct (BuilderFacts.addStateEvents_error _ _ _ _ _ Hadd) as [cause ->].
    repeat split; try done. right. by eauto.
  - injection Herr as <-. repeat split; try done. right. by eauto.
Qed.

Lemma AddPrevEventsToEvent_failure_leaves_references_witness :
  eb_AuthEvents
    (fl_builder (AddPrevEventsToEvent
                   (BuilderScenario.toy ["m.room.create"]
                      (BuilderScenario.room true "9" 3) (Scenario.refs 2))
                   Background BuilderScenario.blank emptyResponse 0))
    = NoReferences.
Proof.
  apply (AddPrevEventsToEvent_failure_leaves_references
           (BuilderScenario.toy ["m.room.create"]
              (BuilderScenario.room true "9" 3) (Scenario.refs 2))
           Background BuilderScenario.blank emptyResponse 0
           (Errorf "queryRes.RoomVersion.EventFormat"
                   (ErrForeign "unsupported room version"))).
  reflexivity.
Defined.

(** X19. [BuildEvent] hands every error of [AddPrevEventsToEvent] to its
    caller as it is, [ErrRoomNoExists] included, with a nil event; it
    returns an event exactly when it returns no error, and then the event is
    what [Build] made of the filled builder and the room version of the
    roomserver's answer. *)
Theorem BuildEvent_passes_errors
    {World Event StateNeeded StateKeyTuple AuthEvents Fields Time PrivateKey : Type}
    (c : @Collaborators World Event StateNeeded StateKeyTuple AuthEvents Fields
           Time PrivateKey)
    (ctx : Context) (builder : @EventBuilder Fields) (cfg : @Matrix PrivateKey)
    (evTime : Time) (queryRes : option (@QueryLatestEventsAndStateResponse Event))
    (w : World) :
  let b := BuildEvent c ctx builder cfg evTime queryRes w in
  let filled := AddPrevEventsToEvent c ctx builder (default emptyResponse queryRes) w in
  let built := Build c (fl_builder filled) evTime (cfg_ServerName cfg)
                 (cfg_KeyID cfg) (cfg_PrivateKey cfg)
                 (rs_RoomVersion (fl_queryRes filled)) in
  bl_filled b = filled ∧
  (∀ e, fl_err filled = Some e → bl_err b = Some e ∧ bl_event b = None) ∧
  (bl_event b = None ↔ is_Some (bl_err b)) ∧
  (∀ ev, bl_event b = Some ev →
         fl_err filled = None ∧ built = (ev, None)) ∧
  (bl_err b = Some ErrRoomNoExists →
   fl_err filled = Some ErrRoomNoExists ∨ built.2 = Some ErrRoomNoExists).
Proof.
  intros b filled built. subst b built. unfold BuildEvent.
  replace (match queryRes with Some q => q | None => emptyResponse end)
    with (default emptyResponse queryRes) by by destruct queryRes.
  fold filled.
  destruct (fl_err filled) as [e|] eqn:Hfilled; simpl.
  - split; [done|]. split; [by intros ? [= <-]|]. split; [by eauto|].
    split; [done|]. by left.
  - destruct (Build c (fl_builder filled) evTime (cfg_ServerName cfg)
                (cfg_KeyID cfg) (cfg_PrivateKey cfg)
                (rs_RoomVersion (fl_queryRes filled))) as [ev [e|]]; simpl.
    + split; [done|]. split; [done|]. split; [by eauto|]. split; [done|].
      by right.
    + split; [done|]. split; [done|]. split.
      * split; [done|]. by intros [? ?].
      * split; [by intros ? [= <-]|done].
Qed.

Lemma BuildEvent_passes_errors_witness :
  let b := BuildEvent
             (BuilderScenario.toy ["m.room.create"] (BuilderScenario.room false "1" 3)
                (Scenario.refs 2))
             Scenario.cancelled BuilderScenario.blank
             {| cfg_ServerName := "a"; cfg_KeyID := "ed25519:1"; cfg_PrivateKey := () |}
             0 None 0 in
  bl_err b = Some ErrRoomNoExists ∧ bl_event b = None.
Proof.
  intros b.
  destruct (BuildEvent_passes_errors
              (BuilderScenario.toy ["m.room.create"] (BuilderScenario.room false "1" 3)
                 (Scenario.refs 2))
              Scenario.cancelled BuilderScenario.blank
              {| cfg_ServerName := "a"; cfg_KeyID := "ed25519:1"; cfg_PrivateKey := () |}
              0 None 0) as (_ & Hpass & _).
  apply (Hpass ErrRoomNoExists). reflexivity.
Defined.

(** X20. Truncating twice is truncating once, and the event IDs of the
    truncated references are the truncated list of event IDs. *)
Theorem truncateAuthAndPrevEvents_idempotent (auth prev : list EventReference) :
  let '(truncAuth, truncPrev) := truncateAuthAndPrevEvents auth prev in
  truncateAuthAndPrevEvents truncAuth truncPrev = (truncAuth, truncPrev) ∧
  EventID <$> truncAuth = take 10 (EventID <$> auth) ∧
  EventID <$> truncPrev = take 20 (EventID <$> prev).
Proof.
  rewrite truncateAuthAndPrevEvents_eq.
  rewrite truncateAuthAndPrevEvents_eq, !take_take, !Nat.min_id.
  by rewrite !fmap_take.
Qed.

(** * Properties of the invite events table *)

Module InviteFacts.
Section InviteFacts.
Import invites.
Context {Event : Type}.
Implicit Types (c : @Calls Event) (rows : list Scanned)
  (result : gmap string Event).

Lemma last_json_cons room row rows :
  last_json room (row :: rows) =
    match last_json room rows with
    | Some json => Some json
    | None =>
      match row with
      | ScanOK roomID eventJSON =>
        if decide (roomID = room) then Some eventJSON else None
      | ScanErr _ => None
      end
    end.
Proof.
  unfold last_json. simpl.
  destruct row as [roomID eventJSON|err]; simpl; [|by destruct (last _)].
  case_decide; [|by destruct (last _)].
  by rewrite last_cons.
Qed.

Lemma collectRows_ok c rows result m room :
  collectRows c rows result = inl m →
  m !! room =
    match last_json room rows with
    | Some json =>
      match NewEventFromTrustedJSON c json with
      | inl event => Some event
      | inr _ => None
      end
    | None => result !! room
    end.
Proof.
  revert result. induction rows as [|row rows IH]; intros result; simpl.
  - by intros [= <-].
  - destruct row as [roomID eventJSON|err]; [|done].
    destruct (NewEventFromTrustedJSON c eventJSON) as [event|err] eqn:Hparse;
      [|done].
    intros Hrest. rewrite (IH _ Hrest), last_json_cons.
    destruct (last_json room rows) as [json|]; [done|].
    case_decide as Hroom.
    + subst roomID. by rewrite lookup_insert_eq, Hparse.
    + by rewrite lookup_insert_ne.
Qed.

Lemma collectRows_spec c rows result :
  match collectRows c rows result with
  | inl _ => Forall (λ row, row_error c row = None) rows
  | inr err =>
    ∃ good row bad,
      rows = good ++ row :: bad ∧
      Forall (λ row, row_error c row = None) good ∧
      row_error c row = Some err
  end.
Proof.
  revert result. induction rows as [|row rows IH]; intros result; simpl.
  - constructor.
  - destruct row as [roomID eventJSON|err].
    + destruct (NewEventFromTrustedJSON c eventJSON) as [event|err] eqn:Hparse.
      * specialize (IH (<[roomID := event]> result)).
        destruct (collectRows c rows (<[roomID := event]> result)) as [m|err].
        -- constructor; [|done]. simpl. by rewrite Hparse.
        -- destruct IH as (good & row & bad & -> & Hgood & Hrow).
           exists (ScanOK roomID eventJSON :: good), row, bad.
           split; [done|]. split; [|done].
           constructor; [|done]. simpl. by rewrite Hparse.
      * exists [], (ScanOK roomID eventJSON), rows.
        split; [done|]. split; [constructor|]. simpl. by rewrite Hparse.
    + exists [], (ScanErr err), rows. by repeat split.
Qed.

End InviteFacts.
End InviteFacts.

Import invites.

(** X21. When [selectInviteEventsInRange] succeeds, a room is in the map
    exactly if some delivered row belongs to it, and its event is the one
    parsed from the last such row in the order of delivery; earlier rows of
    the same room are overwritten. *)
Theorem selectInviteEventsInRange_last_row_wins {Event : Type}
    (c : @Calls Event) (targetUserID : string) (startPos endPos : Z)
    (result : gmap string Event) (room : string) :
  (selectInviteEventsInRange c targetUserID startPos endPos).1 = Some result →
  ∃ rows,
    QueryContext c targetUserID startPos endPos = inl rows ∧
    match last_json room rows with
    | Some json => ∃ event, result !! room = Some event ∧
                            NewEventFromTrustedJSON c json = inl event
    | None => result !! room = None
    end.
Proof.
  unfold selectInviteEventsInRange.
  destruct (QueryContext c targetUserID startPos endPos) as [rows|err]; [|done].
  destruct (collectRows c rows ∅) as [m|err] eqn:Hcollect; [|done].
  simpl. intros [= <-]. exists rows. split; [done|].
  pose proof (InviteFacts.collectRows_ok c rows ∅ m room Hcollect) as Hroom.
  pose proof (InviteFacts.collectRows_spec c rows ∅) as Hall.
  rewrite Hcollect in Hall.
  destruct (last_json room rows) as [json|] eqn:Hlast; [|by rewrite Hroom].
  assert (Hin : ScanOK room json ∈ rows).
  { unfold last_json in Hlast. apply last_Some_elem_of in Hlast.
    apply list_elem_of_omap in Hlast as (row & Hrow & Hjson).
    destruct row as [roomID eventJSON|]; [|done].
    case_decide; [|done]. by simplify_eq. }
  rewrite Forall_forall in Hall. specialize (Hall _ Hin). simpl in Hall.
  destruct (NewEventFromTrustedJSON c json) as [event|err]; [|done].
  by exists event.
Qed.

Lemma selectInviteEventsInRange_last_row_wins_witness :
  let c := toyCalls [ScanOK "!a" [x03]; ScanOK "!b" [x02]; ScanOK "!a" [x01]] in
  ∃ rows,
    QueryContext c "@u:a" 0 9 = inl rows ∧
    match last_json "!a" rows with
    | Some json =>
      ∃ event,
        ({[ "!a"%string := [x01]; "!b"%string := [x02] ]} : gmap string (list byte))
          !! "!a"%string = Some event ∧
        NewEventFromTrustedJSON c json = inl event
    | None => ({[ "!a"%string := [x01]; "!b"%string := [x02] ]}
                : gmap string (list byte)) !! "!a"%string = None
    end.
Proof.
  intros c.
  apply (selectInviteEventsInRange_last_row_wins c "@u:a" 0 9). reflexivity.
Defined.

(** X22. One bad row fails the whole call: if the statement answers with
    rows of which one cannot be scanned or parsed, the call returns no map,
    and its error is that of the first such row in the order of delivery;
    if the statement itself fails, its error is returned.  A map is returned
    only when every delivered row scans and parses. *)
Theorem selectInviteEventsInRange_all_or_nothing {Event : Type}
    (c : @Calls Event) (targetUserID : string) (startPos endPos : Z) :
  match selectInviteEventsInRange c targetUserID startPos endPos with
  | (Some result, err) =>
    err = None ∧
    ∃ rows, QueryContext c targetUserID startPos endPos = inl rows ∧
            Forall (λ row, row_error c row = None) rows
  | (None, err) =>
    ∃ e, err = Some e ∧
         (QueryContext c targetUserID startPos endPos = inr e ∨
          ∃ good row bad,
            QueryContext c targetUserID startPos endPos = inl (good ++ row :: bad) ∧
            Forall (λ row, row_error c row = None) good ∧
            row_error c row = Some e)
  end.
Proof.
  unfold selectInviteEventsInRange.
  destruct (QueryContext c targetUserID startPos endPos) as [rows|err];
    [|by exists err; split; [|left]].
  pose proof (InviteFacts.collectRows_spec c rows ∅) as Hall.
  destruct (collectRows c rows ∅) as [m|err].
  - split; [done|]. by exists rows.
  - exists err. split; [done|]. right.
    destruct Hall as (good & row & bad & -> & Hgood & Hrow).
    by exists good, row, bad.
Qed.
